(** * Secure voting with Paillier encryption: tally engine, session server, client

    The development embeds three layers of the repository:
    - the arithmetic primitives and the Paillier cryptosystem that
      [server.js] and [App.js] obtain from the [paillier-bigint] package;
    - the four request handlers of [src/backend/server.js] over the two
      in-memory tables [votingSessions] and [encryptedVotes];
    - the [SecureVotingClient] class of [src/frontend/src/App.js].

    Big integers are [Z]; JavaScript strings are [string]; the two tables are
    finite maps keyed by the session identifier.  Randomness and the clock are
    made explicit: every operation that draws a random value or reads the
    time receives that value as an argument. *)

From Stdlib Require Import ZArith Zdivisibility Zcong Znumtheory Permutation Ascii String.
From Stdlib Require Import DecimalString DecimalZ DecimalPos Lia.
From Bignums Require Import BigZ.BigZ.
From stdpp Require Import gmap strings list.

Local Open Scope Z_scope.

(** ** Exceptions and fallible results *)

(** What a JavaScript [throw] carries in this program, together with the error
    kinds of the cryptographic core. *)
Inductive exn : Type :=
  | TypeError                 (* property access or call on a non-object / non-function *)
  | SyntaxError               (* [BigInt(s)] on a string that is no integer literal *)
  | Error (message : string)  (* [throw new Error(message)] *)
  | RejectedPrimes            (* key generation: the drawn primes are refused and redrawn *)
  | InternalInvariantError    (* key generation: [L] did not divide evenly *)
  | NotInvertibleError        (* [mod_inverse] on a non-unit *)
  | DecryptionError.          (* [decrypt] on something outside the ciphertext group *)

Inductive result (A : Type) : Type :=
  | Ok (a : A)
  | Throw (e : exn).
Arguments Ok {A} a.
Arguments Throw {A} e.

#[export] Instance result_ret : MRet result := fun A a => Ok a.

#[export] Instance result_bind : MBind result := fun A B k r =>
  match r with
  | Ok a => k a
  | Throw e => Throw e
  end.

(** ** Arithmetic primitives *)

Module arith.

(** Modelled from the spec: [mod_pow(base, exponent, modulus)], which the
    repository takes from its big-integer dependency; section 4.1 fixes it as
    square-and-multiply.  The exponent is scanned from its most significant
    bit; every step squares and reduces, and multiplies by the base when the
    bit is set. *)
Fixpoint mod_pow_pos (base : Z) (exponent : positive) (modulus : Z) : Z :=
  match exponent with
  | xH => base mod modulus
  | xO e =>
      let h := mod_pow_pos base e modulus in
      (h * h) mod modulus
  | xI e =>
      let h := mod_pow_pos base e modulus in
      (((h * h) mod modulus) * base) mod modulus
  end.

(** Modelled from the spec: the entry point of [mod_pow].  A negative
    exponent is outside its contract; the value is then 0, as for [Z.pow]. *)
Definition mod_pow (base exponent modulus : Z) : Z :=
  match exponent with
  | Z0 => 1 mod modulus
  | Zpos e => mod_pow_pos base e modulus
  | Zneg _ => 0
  end.

(** Modelled from the spec: the extended Euclidean algorithm behind
    [mod_inverse].  The loop keeps two consecutive remainders [r0], [r1] and
    the coefficients [s0], [s1] with [ri = si * a (mod modulus)]; [fuel]
    bounds the number of divisions. *)
Fixpoint egcd_loop (fuel : nat) (r0 r1 s0 s1 : Z) : Z * Z :=
  match fuel with
  | O => (r0, s0)
  | S fuel' =>
      if r1 =? 0 then (r0, s0)
      else
        let quo := r0 / r1 in
        egcd_loop fuel' r1 (r0 - quo * r1) s1 (s0 - quo * s1)
  end.

(** Modelled from the spec: [mod_inverse(a, modulus)], failing with
    [NotInvertibleError] when [gcd(a, modulus) <> 1].  The remainders
    decrease strictly from [modulus], so [modulus + 1] divisions suffice. *)
Definition mod_inverse (a modulus : Z) : result Z :=
  let '(d, s) := egcd_loop (S (Z.to_nat modulus)) modulus (a mod modulus) 0 1 in
  if d =? 1 then Ok (s mod modulus) else Throw NotInvertibleError.

End arith.

(** ** The Paillier cryptosystem *)

Module paillier.

(** Modelled from the spec: the public half of the key pair of section 3,
    the modulus [n] and the generator [g]. *)
Record PublicKey : Type := { n : Z; g : Z }.

(** Modelled from the spec: the private half of a key pair. *)
Record PrivateKey : Type := { lambda : Z; mu : Z }.

(** Modelled from the spec: what key generation returns. *)
Record KeyPair : Type := { publicKey : PublicKey; privateKey : PrivateKey }.

(** Modelled from the spec: [n^2], the modulus of the ciphertext space. *)
Definition _n2 (pub : PublicKey) : Z := n pub * n pub.

(** Modelled from the spec: [L(x) = (x - 1) / n]. *)
Definition L (x modulus : Z) : Z := (x - 1) / modulus.

(** Modelled from the spec: [generate_key_pair] of section 4.2, the body of
    [paillier.generateRandomKeys] that is not in the repository.  [p] and
    [q] are the two primes drawn by [random_prime] for the requested bit
    length; a pair that is not distinct or violates
    [gcd(pq, (p-1)(q-1)) = 1] is refused (selection is then repeated with
    new draws). *)
Definition generate_key_pair (p q : Z) : result KeyPair :=
  if (p =? q) || negb (Z.gcd (p * q) ((p - 1) * (q - 1)) =? 1)
  then Throw RejectedPrimes
  else
    let n := p * q in
    let lambda := Z.lcm (p - 1) (q - 1) in
    let g := n + 1 in
    let x := arith.mod_pow g lambda (n * n) in
    if (x - 1) mod n =? 0 then
      mu ← arith.mod_inverse (L x n) n;
      Ok {| publicKey := {| n := n; g := g |};
            privateKey := {| lambda := lambda; mu := mu |} |}
    else Throw InternalInvariantError.

(** Modelled from the spec: [encrypt(plaintext, public_key)] of section
    4.3, with the random [r] of the call as an argument. *)
Definition encrypt (pub : PublicKey) (plaintext r : Z) : Z :=
  (arith.mod_pow (g pub) plaintext (_n2 pub)
   * arith.mod_pow r (n pub) (_n2 pub)) mod _n2 pub.

(** Modelled from the spec: a valid element of the ciphertext group of
    section 4.3, that is a residue modulo [n^2] coprime to it. *)
Definition in_ciphertext_group (pub : PublicKey) (c : Z) : bool :=
  (0 <=? c) && (c <? _n2 pub) && (Z.gcd c (_n2 pub) =? 1).

(** Modelled from the spec: [decrypt(ciphertext, private_key, public_key)]
    of section 4.3, failing with [DecryptionError] outside the ciphertext
    group. *)
Definition decrypt (priv : PrivateKey) (pub : PublicKey) (ciphertext : Z) : result Z :=
  if in_ciphertext_group pub ciphertext then
    let u := arith.mod_pow ciphertext (lambda priv) (_n2 pub) in
    Ok ((L u (n pub) * mu priv) mod n pub)
  else Throw DecryptionError.

(** Modelled from the spec: the homomorphic addition of two ciphertexts,
    one step of the iterated modular multiplication of section 4.4. *)
Definition addition (pub : PublicKey) (c1 c2 : Z) : Z :=
  (c1 * c2) mod _n2 pub.

End paillier.

(** ** JavaScript built-ins used by the server and the client *)

Module js.

(** [BigInt.prototype.toString()]: the decimal literal, with a leading
    minus sign for negative values. *)
Definition toString (z : Z) : string :=
  NilZero.string_of_int (Z.to_int z).

(** White space that [BigInt(s)] strips from both ends of [s]. *)
Definition is_white_space (c : ascii) : bool :=
  match N_of_ascii c with
  | 9%N | 10%N | 11%N | 12%N | 13%N | 32%N | 160%N => true
  | _ => false
  end.

Fixpoint trim_start (s : string) : string :=
  match s with
  | EmptyString => EmptyString
  | String c s' => if is_white_space c then trim_start s' else s
  end.

Fixpoint trim_end (s : string) : string :=
  match s with
  | EmptyString => EmptyString
  | String c s' =>
      match trim_end s' with
      | EmptyString => if is_white_space c then EmptyString else String c EmptyString
      | t => String c t
      end
  end.

Definition trim (s : string) : string := trim_end (trim_start s).

Definition digit_value (c : ascii) : option Z :=
  let k := Z.of_N (N_of_ascii c) in
  if (48 <=? k) && (k <=? 57) then Some (k - 48)
  else if (97 <=? k) && (k <=? 122) then Some (k - 87)
  else if (65 <=? k) && (k <=? 90) then Some (k - 55)
  else None.

Fixpoint parse_digits (radix acc : Z) (s : string) : option Z :=
  match s with
  | EmptyString => Some acc
  | String c s' =>
      match digit_value c with
      | Some d => if d <? radix then parse_digits radix (acc * radix + d) s' else None
      | None => None
      end
  end.

(** A non-decimal literal body: at least one digit of the radix. *)
Definition radix_literal (radix : Z) (s : string) : option Z :=
  match s with
  | EmptyString => None
  | _ => parse_digits radix 0 s
  end.

(** A run of one or more decimal digits. *)
Definition decimal_digits (s : string) : option Z :=
  Z.of_uint <$> NilZero.uint_of_string s.

Definition string_to_bigint (s : string) : option Z :=
  match trim s with
  | EmptyString => Some 0
  | String "+"%char t => decimal_digits t
  | String "-"%char t => Z.opp <$> decimal_digits t
  | String "0"%char (String "x"%char t) | String "0"%char (String "X"%char t) =>
      radix_literal 16 t
  | String "0"%char (String "o"%char t) | String "0"%char (String "O"%char t) =>
      radix_literal 8 t
  | String "0"%char (String "b"%char t) | String "0"%char (String "B"%char t) =>
      radix_literal 2 t
  | t => decimal_digits t
  end.

(** [BigInt(s)] on a string: the value of the integer literal, or a
    [SyntaxError]. *)
Definition BigInt (s : string) : result Z :=
  match string_to_bigint s with
  | Some z => Ok z
  | None => Throw SyntaxError
  end.

(** Values of type number that arise from [Number(b)] on a big integer:
    [Integer z] is the number [z] itself; [Rounded z] is the double nearest
    to [z], which need not be [z]. *)
Inductive number : Type :=
  | Integer (z : Z)
  | Rounded (z : Z).

Definition Number (b : Z) : number :=
  if Z.abs b <=? 2 ^ 53 then Integer b else Rounded b.

(** [s.substring(0, 50) + '...'], the abbreviation used for logs and for
    session snapshots. *)
Definition abbreviate (s : string) : string :=
  String.app (String.substring 0 50 s) "..."%string.

End js.

(** ** The backend: [src/backend/server.js] *)

(** [new Date()]: milliseconds since the epoch, read from the clock. *)
Definition Date : Type := Z.

Module server.

(** The key material as it travels in JSON: decimal strings. *)
Record PublicKeyJSON : Type := { n : string; g : string }.
Record PrivateKeyJSON : Type := { lambda : string; mu : string }.

(** A value of [votingSessions]. *)
Record Session : Type :=
  { publicKey : PublicKeyJSON; createdAt : Date; voteCount : nat }.

(** An element of an [encryptedVotes] array. *)
Record Vote : Type := { encryptedValue : string; timestamp : Date }.

(** The two module-level tables.  Both are plain objects indexed by the
    session identifier.  Every key ever stored starts with [session_] (see
    [generateSessionId]); a lookup is the lookup of such a stored key.  The
    names of the members of [Object.prototype] ([constructor], [__proto__],
    ...) are not told apart from other absent keys: on them the routes
    below answer 404 where the program fails with status 500. *)
Record State : Type :=
  { votingSessions : gmap string Session;
    encryptedVotes : gmap string (list Vote) }.

Definition initial : State :=
  {| votingSessions := ∅; encryptedVotes := ∅ |}.

(** One element of the [votes] array of a session snapshot. *)
Record VoteView : Type := { encrypted : string; view_timestamp : Date }.

(** What a handler sends back: the fields of the JSON body that vary (the
    constant fields [success], [message] and [note] are left out). *)
Inductive Response : Type :=
  | InitResponse (sessionId : string)
      (publicKey : PublicKeyJSON) (privateKey : PrivateKeyJSON)
  | SubmitResponse (voteCount : nat)
  | ComputeResponse (encryptedResult : string) (voteCount : nat)
  | SessionResponse (sessionId : string) (voteCount : nat) (createdAt : Date)
      (publicKey : PublicKeyJSON) (votes : list VoteView)
  | Failure (status : nat) (error : string)
      (* [res.status(status).json({ success: false, error })] *)
  | Caught (e : exn)
      (* the [catch] block: status 500 with [error.message] *)
  | Uncaught (e : exn).
      (* an exception that leaves the handler: the framework answers 500 *)

Definition status (r : Response) : nat :=
  match r with
  | Failure st _ => st
  | Caught _ | Uncaught _ => 500%nat
  | _ => 200%nat
  end.

(** [response.ok] as the client sees it. *)
Definition ok (r : Response) : bool :=
  (200 <=? status r)%nat && (status r <=? 299)%nat.

(** [generateSessionId()]; [random1] and [random2] are the two strings
    [Math.random().toString(36)]. *)
Definition generateSessionId (random1 random2 : string) : string :=
  String.app "session_"
    (String.app (String.substring 2 13 random1) (String.substring 2 13 random2)).

Definition publicKeyJSON (pub : paillier.PublicKey) : PublicKeyJSON :=
  {| n := js.toString (paillier.n pub); g := js.toString (paillier.g pub) |}.

Definition privateKeyJSON (priv : paillier.PrivateKey) : PrivateKeyJSON :=
  {| lambda := js.toString (paillier.lambda priv);
     mu := js.toString (paillier.mu priv) |}.

(** ROUTE 1, [POST /api/voting/init].  [keys] is the outcome of
    [await paillier.generateRandomKeys(2048)]; the route does not look at
    it, and a statement that depends on the size of the key says so. *)
Definition init (keys : result paillier.KeyPair) (random1 random2 : string)
    (now : Date) (st : State) : State * Response :=
  match keys with
  | Throw e => (st, Caught e)
  | Ok keys =>
      let sessionId := generateSessionId random1 random2 in
      let pub := publicKeyJSON (paillier.publicKey keys) in
      ({| votingSessions :=
            <[sessionId := {| publicKey := pub; createdAt := now; voteCount := 0 |}]>
              (votingSessions st);
          encryptedVotes := <[sessionId := []]> (encryptedVotes st) |},
       InitResponse sessionId pub (privateKeyJSON (paillier.privateKey keys)))
  end.

(** ROUTE 2, [POST /api/voting/submit].  [sessionId] is the property key
    that the body's [sessionId] converts to.  [encryptedVote] is [None] when
    the body carries no string under that name: the logging line then fails
    on [.substring] before anything is stored. *)
Definition submit (sessionId : string) (encryptedVote : option string)
    (now : Date) (st : State) : State * Response :=
  match votingSessions st !! sessionId with
  | None => (st, Failure 404 "Session not found")
  | Some session =>
      match encryptedVote with
      | None => (st, Caught TypeError)
      | Some encryptedVote =>
          match encryptedVotes st !! sessionId with
          | None => (st, Caught TypeError)
          | Some votes =>
              let votes' :=
                votes ++ [{| encryptedValue := encryptedVote; timestamp := now |}] in
              let session' :=
                {| publicKey := publicKey session;
                   createdAt := createdAt session;
                   voteCount := S (voteCount session) |} in
              ({| votingSessions := <[sessionId := session']> (votingSessions st);
                  encryptedVotes := <[sessionId := votes']> (encryptedVotes st) |},
               SubmitResponse (voteCount session'))
          end
      end
  end.

(** The loop of ROUTE 3 from [i = 1]: one homomorphic addition per stored
    vote, in array order. *)
Fixpoint sum_loop (pub : paillier.PublicKey) (encryptedSum : Z) (votes : list Vote)
    : result Z :=
  match votes with
  | [] => Ok encryptedSum
  | v :: votes' =>
      c ← js.BigInt (encryptedValue v);
      sum_loop pub (paillier.addition pub encryptedSum c) votes'
  end.

(** The body of ROUTE 3 after the two guards: rebuild the public key, start
    from [votes[0]], run the loop. *)
Definition homomorphic_sum (session : Session) (votes : list Vote) : result Z :=
  n ← js.BigInt (n (publicKey session));
  g ← js.BigInt (g (publicKey session));
  match votes with
  | [] => Throw TypeError
  | v0 :: votes' =>
      encryptedSum ← js.BigInt (encryptedValue v0);
      sum_loop {| paillier.n := n; paillier.g := g |} encryptedSum votes'
  end.

(** ROUTE 3, [POST /api/voting/compute].  Nothing is assigned to either
    table. *)
Definition compute (sessionId : string) (st : State) : State * Response :=
  match votingSessions st !! sessionId with
  | None => (st, Failure 404 "Session not found")
  | Some session =>
      match encryptedVotes st !! sessionId with
      | None => (st, Caught TypeError)
      | Some votes =>
          if (length votes =? 0)%nat then (st, Failure 400 "No votes to compute")
          else
            match homomorphic_sum session votes with
            | Ok encryptedSum =>
                (st, ComputeResponse (js.toString encryptedSum) (length votes))
            | Throw e => (st, Caught e)
            end
      end
  end.

(** The arrow function that ROUTE 4 maps over the stored votes. *)
Definition view (v : Vote) : VoteView :=
  {| encrypted := js.abbreviate (encryptedValue v);
     view_timestamp := timestamp v |}.

(** ROUTE 4, [GET /api/voting/session/:sessionId]. *)
Definition session (sessionId : string) (st : State) : State * Response :=
  match votingSessions st !! sessionId with
  | None => (st, Failure 404 "Session not found")
  | Some session =>
      match encryptedVotes st !! sessionId with
      | None => (st, Uncaught TypeError)
      | Some votes =>
          (st, SessionResponse sessionId (voteCount session) (createdAt session)
               (publicKey session) (map view votes))
    end
  end.

(** Requests, with the random draws and clock readings their handling
    consumes. *)
Inductive Request : Type :=
  | PostInit (keys : result paillier.KeyPair) (random1 random2 : string) (now : Date)
  | PostSubmit (sessionId : string) (encryptedVote : option string) (now : Date)
  | PostCompute (sessionId : string)
  | GetSession (sessionId : string).

Definition handle (rq : Request) (st : State) : State * Response :=
  match rq with
  | PostInit keys random1 random2 now => init keys random1 random2 now st
  | PostSubmit sessionId encryptedVote now => submit sessionId encryptedVote now st
  | PostCompute sessionId => compute sessionId st
  | GetSession sessionId => session sessionId st
  end.

(** The state after serving a sequence of requests, oldest first. *)
Definition run (rqs : list Request) (st : State) : State :=
  foldl (fun st rq => fst (handle rq st)) st rqs.

Definition reachable (st : State) : Prop :=
  ∃ rqs, st = run rqs initial.

End server.

(** ** The client: class [SecureVotingClient] of [src/frontend/src/App.js] *)

Module client.

(** The fields of the object; [None] is [null].  The private key object
    keeps the public key it was built with. *)
Record SecureVotingClient : Type :=
  { sessionId : option string;
    publicKey : option server.PublicKeyJSON;
    privateKey : option server.PrivateKeyJSON;
    paillierPublicKey : option paillier.PublicKey;
    paillierPrivateKey : option (paillier.PrivateKey * paillier.PublicKey) }.

(** The constructor. *)
Definition new : SecureVotingClient :=
  {| sessionId := None; publicKey := None; privateKey := None;
     paillierPublicKey := None; paillierPrivateKey := None |}.

(** [!this.sessionId]: [null] and the empty string are falsy. *)
Definition no_session (this : SecureVotingClient) : bool :=
  match sessionId this with
  | None | Some EmptyString => true
  | Some _ => false
  end.

(** STEP 1, [initializeSession()].  The request is served by
    [server.init]; the fields are assigned in source order, so an exception
    part-way leaves the earlier assignments in place. *)
Definition initializeSession (this : SecureVotingClient)
    (keys : result paillier.KeyPair) (random1 random2 : string) (now : Date)
    (srv : server.State) : server.State * SecureVotingClient * result string :=
  let '(srv', response) := server.init keys random1 random2 now srv in
  match response with
  | server.InitResponse sid pub priv =>
      let this1 :=
        {| sessionId := Some sid; publicKey := Some pub; privateKey := Some priv;
           paillierPublicKey := paillierPublicKey this;
           paillierPrivateKey := paillierPrivateKey this |} in
      match (n ← js.BigInt (server.n pub); g ← js.BigInt (server.g pub);
             Ok {| paillier.n := n; paillier.g := g |}) with
      | Throw e => (srv', this1, Throw e)
      | Ok pubKey =>
          let this2 :=
            {| sessionId := sessionId this1; publicKey := publicKey this1;
               privateKey := privateKey this1;
               paillierPublicKey := Some pubKey;
               paillierPrivateKey := paillierPrivateKey this1 |} in
          match (l ← js.BigInt (server.lambda priv); m ← js.BigInt (server.mu priv);
                 Ok {| paillier.lambda := l; paillier.mu := m |}) with
          | Throw e => (srv', this2, Throw e)
          | Ok privKey =>
              (srv',
               {| sessionId := sessionId this2; publicKey := publicKey this2;
                  privateKey := privateKey this2;
                  paillierPublicKey := paillierPublicKey this2;
                  paillierPrivateKey := Some (privKey, pubKey) |},
               Ok sid)
          end
      end
  | _ => (srv', this, Throw (Error "Failed to initialize session"))
  end.

Record CastVoteResult : Type := { voteCount : nat; encryptedVote : string }.

(** STEP 2, [castVote(vote)].  [r] is the randomness drawn by [encrypt];
    the request is served by [server.submit] at time [now]. *)
Definition castVote (this : SecureVotingClient) (vote r : Z) (now : Date)
    (srv : server.State) : server.State * result CastVoteResult :=
  match no_session this, paillierPublicKey this, sessionId this with
  | false, Some pubKey, Some sid =>
      if negb (vote =? 0) && negb (vote =? 1)
      then (srv, Throw (Error "Vote must be 0 (No) or 1 (Yes)"))
      else
        let encryptedVoteString := js.toString (paillier.encrypt pubKey vote r) in
        let '(srv', response) := server.submit sid (Some encryptedVoteString) now srv in
        match response with
        | server.SubmitResponse count =>
            (srv', Ok {| voteCount := count;
                         encryptedVote := js.abbreviate encryptedVoteString |})
        | _ => (srv', Throw (Error "Failed to submit vote"))
        end
  | _, _, _ =>
      (srv, Throw (Error "Session not initialized. Call initializeSession() first."))
  end.

Record ComputeResult : Type := { encryptedResult : string; computedCount : nat }.

(** STEP 3, [computeResults()], served by [server.compute]. *)
Definition computeResults (this : SecureVotingClient) (srv : server.State)
    : server.State * result ComputeResult :=
  match no_session this, sessionId this with
  | false, Some sid =>
      let '(srv', response) := server.compute sid srv in
      match response with
      | server.ComputeResponse res count =>
          (srv', Ok {| encryptedResult := res; computedCount := count |})
      | _ => (srv', Throw (Error "Failed to compute results"))
      end
  | _, _ => (srv, Throw (Error "Session not initialized"))
  end.

(** STEP 4, [decryptResults(encryptedResult)]; the result is the field
    [totalYesVotes]. *)
Definition decryptResults (this : SecureVotingClient) (encryptedResult : string)
    : result js.number :=
  match paillierPrivateKey this with
  | None => Throw (Error "Private key not available")
  | Some (privKey, pubKey) =>
      c ← js.BigInt encryptedResult;
      decryptedSum ← paillier.decrypt privKey pubKey c;
      Ok (js.Number decryptedSum)
  end.

(** What [exportKeys()] returns and [importKeys(keys)] receives (the constant
    field [warning] is left out). *)
Module exported.

Record Keys : Type :=
  { sessionId : string;
    publicKey : server.PublicKeyJSON;
    privateKey : server.PrivateKeyJSON }.

End exported.

(** UTILITY, [exportKeys()]. *)
Definition exportKeys (this : SecureVotingClient) : result exported.Keys :=
  match no_session this, sessionId this, publicKey this, privateKey this with
  | false, Some sid, Some pub, Some priv =>
      Ok {| exported.sessionId := sid;
            exported.publicKey := pub;
            exported.privateKey := priv |}
  | _, _, _, _ => Throw (Error "No keys to export")
  end.

(** UTILITY, [importKeys(keys)], on an object of the shape that [exportKeys]
    returns.  The three plain fields are assigned first; each Paillier key
    object is assigned once both of its numbers have been read, so an
    exception from [BigInt] leaves the key objects not yet reached as they
    were. *)
Definition importKeys (this : SecureVotingClient) (keys : exported.Keys)
    : SecureVotingClient * result unit :=
  let pub := exported.publicKey keys in
  let priv := exported.privateKey keys in
  let this1 :=
    {| sessionId := Some (exported.sessionId keys);
       publicKey := Some pub; privateKey := Some priv;
       paillierPublicKey := paillierPublicKey this;
       paillierPrivateKey := paillierPrivateKey this |} in
  match (n ← js.BigInt (server.n pub); g ← js.BigInt (server.g pub);
         Ok {| paillier.n := n; paillier.g := g |}) with
  | Throw e => (this1, Throw e)
  | Ok pubKey =>
      let this2 :=
        {| sessionId := sessionId this1; publicKey := publicKey this1;
           privateKey := privateKey this1;
           paillierPublicKey := Some pubKey;
           paillierPrivateKey := paillierPrivateKey this1 |} in
      match (l ← js.BigInt (server.lambda priv); m ← js.BigInt (server.mu priv);
             Ok {| paillier.lambda := l; paillier.mu := m |}) with
      | Throw e => (this2, Throw e)
      | Ok privKey =>
          ({| sessionId := sessionId this2; publicKey := publicKey this2;
              privateKey := privateKey this2;
              paillierPublicKey := paillierPublicKey this2;
              paillierPrivateKey := Some (privKey, pubKey) |},
           Ok ())
      end
  end.

(** [completeVotingExample()]: a new client opens a session, casts the
    votes 1, 1, 0, 1, asks for the tally, decrypts it and exports its keys.
    [r1] to [r4] are the encryption randomness of the four votes and [t1] to
    [t4] the times at which the server stores them.  [Ok total] stands for
    the returned [{ success: true, results }] with [results.totalYesVotes =
    total]; [Throw e] for [{ success: false, error: e.message }]. *)
Definition completeVotingExample (keys : result paillier.KeyPair)
    (random1 random2 : string) (now : Date) (r1 r2 r3 r4 : Z) (t1 t2 t3 t4 : Date)
    (srv : server.State) : server.State * result js.number :=
  let '(srv, this, opened) := initializeSession new keys random1 random2 now srv in
  match opened with
  | Throw e => (srv, Throw e)
  | Ok _ =>
  let '(srv, cast) := castVote this 1 r1 t1 srv in
  match cast with
  | Throw e => (srv, Throw e)
  | Ok _ =>
  let '(srv, cast) := castVote this 1 r2 t2 srv in
  match cast with
  | Throw e => (srv, Throw e)
  | Ok _ =>
  let '(srv, cast) := castVote this 0 r3 t3 srv in
  match cast with
  | Throw e => (srv, Throw e)
  | Ok _ =>
  let '(srv, cast) := castVote this 1 r4 t4 srv in
  match cast with
  | Throw e => (srv, Throw e)
  | Ok _ =>
  let '(srv, computeResult) := computeResults this srv in
  match computeResult with
  | Throw e => (srv, Throw e)
  | Ok computeResult =>
  match decryptResults this (encryptedResult computeResult) with
  | Throw e => (srv, Throw e)
  | Ok totalYesVotes =>
  match exportKeys this with
  | Throw e => (srv, Throw e)
  | Ok _ => (srv, Ok totalYesVotes)
  end end end end end end end end.

End client.

(** ** The demonstration page: component [HomomorphicVotingApp] of [App.js] *)

Module app.

(** The value of the state variable [clientKeys]. *)
Record Keys : Type := { publicKey : string; privateKey : string; timestamp : Date }.

(** The two values that [setVote] is ever called with: [setVote(0)] for No and
    [setVote(1)] for Yes. *)
Inductive choice : Type := No | Yes.

(** How a template literal prints the number of a choice. *)
Definition digit (voteValue : choice) : string :=
  match voteValue with
  | No => "0"
  | Yes => "1"
  end.

(** [generateKeys()]; [random1] and [random2] are the two strings
    [Math.random().toString(36)] and [now] is [Date.now()]. *)
Definition generateKeys (random1 random2 : string) (now : Date) : Keys :=
  {| publicKey := String.substring 2 13 random1;
     privateKey := String.substring 2 13 random2;
     timestamp := now |}.

(** [encryptVote(voteValue)].  The first component is the argument of the
    call [setClientKeys(keys)], when the call is made; the second is the
    returned string.  [random] is the string [Math.random().toString(36)] of
    the template literal, the other draws are those of [generateKeys]. *)
Definition encryptVote (clientKeys : option Keys) (voteValue : choice)
    (random1 random2 : string) (now : Date) (random : string)
    : option Keys * string :=
  (match clientKeys with
   | None => Some (generateKeys random1 random2 now)
   | Some _ => None
   end,
   String.app "HE_"
     (String.app (digit voteValue)
        (String.app "_" (String.substring 2 13 random)))).

End app.

(** ** Notions used in the statements *)

(** The product of a list of integers. *)
Definition product (l : list Z) : Z := foldr Z.mul 1 l.

(** Multiplication by [a] on the residues modulo [p]. *)
Definition scale (a p x : Z) : Z := (a * x) mod p.

(** [c] carries the plaintext total [M]: it is [g^M * R^n] modulo [n^2] for
    some unit [R]. *)
Definition encodes (pub : paillier.PublicKey) (M c : Z) : Prop :=
  0 ≤ M ∧ ∃ R, Z.coprime R (paillier.n pub)
              ∧ c mod paillier._n2 pub
                = (paillier.g pub ^ M * R ^ paillier.n pub) mod paillier._n2 pub.

(** The key pairs that key generation can return. *)
Definition valid_keys (keys : paillier.KeyPair) : Prop :=
  ∃ p q, Z.prime p ∧ Z.prime q ∧ paillier.generate_key_pair p q = Ok keys.

(** What the proofs below need to know about a key pair. *)
Record key_facts (pub : paillier.PublicKey) (priv : paillier.PrivateKey) : Prop :=
  { modulus_big : 1 < paillier.n pub;
    generator_form : paillier.g pub = paillier.n pub + 1;
    lambda_pos : 0 ≤ paillier.lambda priv;
    mu_inverse : (paillier.mu priv * paillier.lambda priv) mod paillier.n pub = 1;
    units_vanish : ∀ r, Z.coprime r (paillier.n pub) →
      (r ^ (paillier.n pub * paillier.lambda priv)) mod paillier._n2 pub = 1 }.

(** Every character of [s] satisfies [P]. *)
Fixpoint all_chars (P : ascii → bool) (s : string) : bool :=
  match s with
  | EmptyString => true
  | String c s' => P c && all_chars P s'
  end.

(** The characters [0] to [9]. *)
Definition is_decimal_digit (c : ascii) : bool :=
  let k := N_of_ascii c in (48 <=? k)%N && (k <=? 57)%N.

(** The big integer a stored vote denotes (0 when its string is no literal). *)
Definition ciphertext (v : server.Vote) : Z :=
  match js.BigInt (server.encryptedValue v) with
  | Ok c => c
  | Throw _ => 0
  end.

(** A stored vote whose string [BigInt] accepts. *)
Definition readable (v : server.Vote) : Prop :=
  ∃ c, js.BigInt (server.encryptedValue v) = Ok c.

(** A stored vote whose string denotes an element of [[0, n^2)]. *)
Definition in_range (n : Z) (v : server.Vote) : Prop :=
  ∃ c, js.BigInt (server.encryptedValue v) = Ok c ∧ 0 ≤ c < n * n.

(** The store after the submit route has accepted the string [ev] for the
    session [sid], whose record and votes were [session] and [votes]. *)
Definition add_vote (sid ev : string) (now : Date) (session : server.Session)
    (votes : list server.Vote) (st : server.State) : server.State :=
  {| server.votingSessions :=
       <[sid := {| server.publicKey := server.publicKey session;
                   server.createdAt := server.createdAt session;
                   server.voteCount := S (server.voteCount session) |}]>
         (server.votingSessions st);
     server.encryptedVotes :=
       <[sid := votes ++ [{| server.encryptedValue := ev; server.timestamp := now |}]]>
         (server.encryptedVotes st) |}.

(** The store [st] with the votes of session [sid] replaced. *)
Definition with_votes (sid : string) (votes : list server.Vote) (st : server.State)
    : server.State :=
  {| server.votingSessions := server.votingSessions st;
     server.encryptedVotes := <[sid := votes]> (server.encryptedVotes st) |}.

(** A generated key pair with its private half replaced by [blank]. *)
Definition redact_keys (blank : paillier.PrivateKey) (keys : result paillier.KeyPair)
    : result paillier.KeyPair :=
  match keys with
  | Ok k => Ok {| paillier.publicKey := paillier.publicKey k;
                  paillier.privateKey := blank |}
  | Throw e => Throw e
  end.

(** The same request with the private half of any generated key pair
    replaced by [blank]. *)
Definition redact (blank : paillier.PrivateKey) (rq : server.Request) : server.Request :=
  match rq with
  | server.PostInit keys random1 random2 now =>
      server.PostInit (redact_keys blank keys) random1 random2 now
  | _ => rq
  end.

(** Where a session record comes from. *)
Definition created_by (rqs : list server.Request) (sid : string)
    (session : server.Session) : Prop :=
  ∃ keys random1 random2 now,
    server.PostInit (Ok keys) random1 random2 now ∈ rqs
    ∧ sid = server.generateSessionId random1 random2
    ∧ server.publicKey session = server.publicKeyJSON (paillier.publicKey keys)
    ∧ server.createdAt session = now.

(** One call of [castVote]: the vote, the randomness drawn by [encrypt], and
    the time at which the server stores the ballot. *)
Record Ballot : Type := { vote : Z; randomness : Z; cast_at : Date }.

(** A run of [castVote] calls, each awaited before the next, stopping at the
    first exception. *)
Fixpoint castVotes (this : client.SecureVotingClient) (ballots : list Ballot)
    (srv : server.State) : server.State * result unit :=
  match ballots with
  | [] => (srv, Ok ())
  | b :: ballots' =>
      let '(srv', r) := client.castVote this (vote b) (randomness b) (cast_at b) srv in
      match r with
      | Ok _ => castVotes this ballots' srv'
      | Throw e => (srv', Throw e)
      end
  end.

(** What the voting use case asks of a ballot: the vote is 0 or 1 and the
    randomness is a unit below [n]. *)
Definition valid_ballot (pub : paillier.PublicKey) (b : Ballot) : Prop :=
  (vote b = 0 ∨ vote b = 1)
  ∧ 0 < randomness b < paillier.n pub
  ∧ Z.coprime (randomness b) (paillier.n pub).

(** The table entry a ballot becomes. *)
Definition stored (pub : paillier.PublicKey) (b : Ballot) : server.Vote :=
  {| server.encryptedValue := js.toString (paillier.encrypt pub (vote b) (randomness b));
     server.timestamp := cast_at b |}.

(** The sum of a list of integers. *)
Definition total (l : list Z) : Z := foldr Z.add 0 l.

(** A client that holds the key pair [keys] for session [sid]. *)
Definition holds_keys (this : client.SecureVotingClient) (sid : string)
    (keys : paillier.KeyPair) : Prop :=
  client.sessionId this = Some sid ∧ sid ≠ EmptyString
  ∧ client.paillierPublicKey this = Some (paillier.publicKey keys)
  ∧ client.paillierPrivateKey this
    = Some (paillier.privateKey keys, paillier.publicKey keys).

(** A store in which session [sid] is bound to the public key [pub]. *)
Definition session_for (st : server.State) (sid : string) (pub : paillier.PublicKey)
    (votes : list server.Vote) : Prop :=
  (∃ session, server.votingSessions st !! sid = Some session
              ∧ server.publicKey session = server.publicKeyJSON pub)
  ∧ server.encryptedVotes st !! sid = Some votes.

(** The stored vote [v] is a well-formed ciphertext of the plaintext [M]. *)
Definition holds_plaintext (pub : paillier.PublicKey) (v : server.Vote) (M : Z) : Prop :=
  ∃ c, js.BigInt (server.encryptedValue v) = Ok c
       ∧ encodes pub M c ∧ 0 ≤ c < paillier._n2 pub.

(** Modelled from the spec: the bit length of a positive integer, as in
    the invariant that the bit length of [n] matches the configured security
    parameter. *)
Definition bit_length (a : Z) : Z := Z.log2 a + 1.

(** Modelled from the spec: the key pairs that key generation returns for
    the security parameter [bits]; the init route asks for
    [generateRandomKeys(2048)]. *)
Definition generated_keys (bits : Z) (keys : paillier.KeyPair) : Prop :=
  valid_keys keys ∧ bit_length (paillier.n (paillier.publicKey keys)) = bits.

(** Modular exponentiation on machine-word integers: square and multiply
    along the bits of the exponent. *)
Fixpoint big_pow_pos (b : bigZ) (e : positive) (m : bigZ) : bigZ :=
  match e with
  | xH => BigZ.modulo b m
  | xO e' =>
      let h := big_pow_pos b e' m in BigZ.modulo (BigZ.mul h h) m
  | xI e' =>
      let h := big_pow_pos b e' m in
      BigZ.modulo (BigZ.mul b (BigZ.modulo (BigZ.mul h h) m)) m
  end.

(** [b^e mod m], computed on machine words. *)
Definition fast_pow (b : Z) (e : positive) (m : Z) : Z :=
  BigZ.to_Z (big_pow_pos (BigZ.of_Z b) e (BigZ.of_Z m)).

(** The greatest common divisor, computed on machine words. *)
Definition fast_gcd (a b : Z) : Z :=
  BigZ.to_Z (BigZ.gcd (BigZ.of_Z a) (BigZ.of_Z b)).

(** One link of a chain of primes: the number [N], a base [a] and an
    exponent [R]. *)
Record Link : Type := { link_N : Z; link_a : Z; link_R : positive }.

(** The test of one link above a prime [q]: [N] is below [(q + 1)^2], and
    [a^R] has order [q] modulo every prime factor of [N]. *)
Definition check_link (q : Z) (l : Link) : bool :=
  let N := link_N l in
  let b := fast_pow (link_a l) (link_R l) N in
  (1 <? q) && (1 <? N) && (N <? (q + 1) * (q + 1))
  && (fast_pow b (Z.to_pos q) N =? 1) && (fast_gcd (b - 1) N =? 1).

(** The test of a chain that starts above the prime [q]; the result is the
    last number of the chain. *)
Fixpoint check_chain (q : Z) (chain : list Link) : option Z :=
  match chain with
  | [] => Some q
  | l :: chain => if check_link q l then check_chain (link_N l) chain else None
  end.

(** A chain of primes from 3 up to a prime of 1025 bits. *)
Definition chain_p : list Link :=
  [ {| link_N := 13; link_a := 2; link_R := 4 |};
    {| link_N := 131; link_a := 2; link_R := 10 |};
    {| link_N := 12577; link_a := 2; link_R := 96 |};
    {| link_N := 133618049; link_a := 2; link_R := 10624 |};
    {| link_N := 16336895207591969; link_a := 2; link_R := 122265632 |};
    {| link_N := 219964808132750919645401791866637; link_a := 2; link_R := 13464296938780044 |};
    {| link_N := 46504968516768253394958342568642609846093318101742409238298327799; link_a := 2; link_R := 211420039921577130937697169746254 |};
    {| link_N := 1732962590455961575502081059787398397445745645378647590067093341296762481005120422710983201284565506433551076215433453286047567769; link_a := 2; link_R := 37264031042857471464750120134212198501511759823117389003976961832 |};
    {| link_N := 2708057110102219697748567359641262009792541647181999029079998547701292927598329826452521612968688370076811971257651817528634489719877832039252923149683296870693737759238775360966515916783111966376955014667161150865584276082036402506950992399272127077629893651; link_a := 2; link_R := 1562674881163880171778871038969046419397507660852176214752965669734274254318886032128787705508617105977621346442658772713548410850 |};
    {| link_N := 203923217024397926626816354916365926225396503207636930164465565464809228441600022441164456256466458605428088424547877063378950159705638920911636136643120724318348507502568341241616686807968160576881617294916759125213196286075079780193110768648830479614253451502362702358813096094232749677284194058262830295033; link_a := 2; link_R := 75302406387101835310329558403948878615372721768232 |} ].

(** A chain of primes from 3 up to a prime of 1024 bits. *)
Definition chain_q : list Link :=
  [ {| link_N := 7; link_a := 2; link_R := 2 |};
    {| link_N := 29; link_a := 2; link_R := 4 |};
    {| link_N := 523; link_a := 2; link_R := 18 |};
    {| link_N := 188281; link_a := 2; link_R := 360 |};
    {| link_N := 27441202627; link_a := 2; link_R := 145746 |};
    {| link_N := 639260729581393579157; link_a := 2; link_R := 23295652828 |};
    {| link_N := 323822339977289280766463916081207932743547; link_a := 2; link_R := 506557535904540104978 |};
    {| link_N := 103967403911045920611134406784254265776105405520626178025401950551816126757182155283; link_a := 2; link_R := 321063098729808124117181522384121463802006 |};
    {| link_N := 9733789439077816909528947934527760049539759093479367066229517934544411003341364956030748256526056045973266953197671098123821241796138211415136651780456143427787614377; link_a := 2; link_R := 93623473058979204334838476165899665193875888975013080273601633062157953655900998072 |};
    {| link_N := 106506088031813875005422917303583872352042166969181105377943499126271791200124888903181643663782844433472624072888250665857907218006099660992635284995794132995229538472624510450987166340202178216561135385655992829963944572542095771817004783904564211199599534786041062779641509140036388044536377143650571264347; link_a := 2; link_R := 10941893565544839259364786122758528760045555604769855576191598976731305336048428956259878655270241721435289882143631141282594668436644862340298 |} ].

(** Two primes, of 1025 and of 1024 bits: the last numbers of the two
    chains. *)
Definition p_1025 : Z :=
  203923217024397926626816354916365926225396503207636930164465565464809228441600022441164456256466458605428088424547877063378950159705638920911636136643120724318348507502568341241616686807968160576881617294916759125213196286075079780193110768648830479614253451502362702358813096094232749677284194058262830295033.

Definition q_1024 : Z :=
  106506088031813875005422917303583872352042166969181105377943499126271791200124888903181643663782844433472624072888250665857907218006099660992635284995794132995229538472624510450987166340202178216561135385655992829963944572542095771817004783904564211199599534786041062779641509140036388044536377143650571264347.

(** The key pair that key generation derives from these two primes; its
    modulus has 2048 bits, as the moduli that the init route asks for. *)
Definition keys_2048 : paillier.KeyPair :=
  {| paillier.publicKey :=
       {| paillier.n :=
            21719064104131211457451172186730505959850416154409299576162088863514311192113713496483553986524930093645451881443208949960004054236622043822963901751833212683895052530841876614618911355286357864366477059965291075937899201577708586401593014075783739799183768994636720264336202447759096423539296147029489998691698899691190163335316630479587583853594752654276445577626967710788362660043773425897666336761794729861476282167298533459314548220677501060387590600273809717030017901590045997354137296931419539912449046817328542542049076151616969048808930980971458109204795835022442320358647954433920595918602118193313844088451;
          paillier.g :=
            21719064104131211457451172186730505959850416154409299576162088863514311192113713496483553986524930093645451881443208949960004054236622043822963901751833212683895052530841876614618911355286357864366477059965291075937899201577708586401593014075783739799183768994636720264336202447759096423539296147029489998691698899691190163335316630479587583853594752654276445577626967710788362660043773425897666336761794729861476282167298533459314548220677501060387590600273809717030017901590045997354137296931419539912449046817328542542049076151616969048808930980971458109204795835022442320358647954433920595918602118193313844088452 |};
     paillier.privateKey :=
       {| paillier.lambda :=
            10859532052065605728725586093365252979925208077204649788081044431757155596056856748241776993262465046822725940721604474980002027118311021911481950875916606341947526265420938307309455677643178932183238529982645537968949600788854293200796507037891869899591884497318360132168101223879548211769648073514744999345694235193066975766842195603683817027508656992049813771042279323098640820201024257276660118420772713411287784834931202865038845421482881239241659589317447429858219927807426572830766721891624600559503147068377895293435967646499896748399407714209031709195471424367019277610096674599825729098390773495700221264536;
          paillier.mu :=
            17180700251057659069265294453429900412824758463984257395981404275426864428483417707246641697839756475402221023405000701945284116550730094383640428710152977739451992272892666303532697398948222040476553050909960291157415725020780024089764261346917520675493272497304124386786220771753181289777476420926877609200378145053704915683692054074612213362993894229410343678828262614639392417612112283059370995513350935693832180088522868208192249808381944646183181847537445988187077483013174047581182406930519244814214135764489247003386463096549048214247779753379881141114984159636751956395808763325096651038448558761102144785011 |} |}.

(** The key pair of the primes 5 and 7. *)
Definition example_keys : paillier.KeyPair :=
  {| paillier.publicKey := {| paillier.n := 35; paillier.g := 36 |};
     paillier.privateKey := {| paillier.lambda := 12; paillier.mu := 3 |} |}.

(** A client opens a session on the empty store. *)
Definition example_opened : server.State * client.SecureVotingClient * result string :=
  client.initializeSession client.new (Ok example_keys)
    "0.k3x9w2p5q8a" "0.m7c1z4v6b0d" 1000 server.initial.

(** The identifier that session receives. *)
Definition example_sid : string := "session_k3x9w2p5q8am7c1z4v6b0d".

(** The client after [initializeSession]. *)
Definition example_client : client.SecureVotingClient := example_opened.1.2.

(** Two yes votes. *)
Definition example_ballots : list Ballot :=
  [ {| vote := 1; randomness := 2; cast_at := 1001 |};
    {| vote := 1; randomness := 3; cast_at := 1002 |} ].

(** The store after both votes have been cast. *)
Definition example_store : server.State :=
  (castVotes example_client example_ballots example_opened.1.1).1.

(** What the store then holds for the session. *)
Definition example_votes : list server.Vote :=
  [ {| server.encryptedValue := "648"; server.timestamp := 1001 |};
    {| server.encryptedValue := "1027"; server.timestamp := 1002 |} ].

Definition example_session : server.Session :=
  {| server.publicKey := {| server.n := "35"; server.g := "36" |};
     server.createdAt := 1000;
     server.voteCount := 2 |}.

(** The same session with its two votes in the other order. *)
Definition example_store_swapped : server.State :=
  with_votes example_sid (reverse example_votes) example_store.

(** The same session with the first stored ciphertext changed from 648 to
    649. *)
Definition example_store_corrupted : server.State :=
  with_votes example_sid
    (<[0%nat := {| server.encryptedValue := "649"; server.timestamp := 1001 |}]>
       example_votes)
    example_store.

(** What holds of every session the routes have created: its identifier was
    generated, its votes are in the other table under the same key and are
    as many as its counter says, and its public key was printed from a
    generated one. *)
Definition well_formed (st : server.State) : Prop :=
  ∀ sid,
    match server.votingSessions st !! sid, server.encryptedVotes st !! sid with
    | Some session, Some votes =>
        server.voteCount session = length votes
        ∧ (∃ random1 random2, sid = server.generateSessionId random1 random2)
        ∧ (∃ pub, server.publicKey session = server.publicKeyJSON pub)
    | None, None => True
    | _, _ => False
    end.

(** A request that does not open a session under the identifier [sid]. *)
Definition keeps_identifier (sid : string) (rq : server.Request) : Prop :=
  match rq with
  | server.PostInit (Ok _) random1 random2 _ =>
      server.generateSessionId random1 random2 ≠ sid
  | _ => True
  end.

(** The requests that submit the strings [evs], each with its time of
    receipt, to the session [sid]. *)
Definition submissions (sid : string) (evs : list (string * Date)) : list server.Request :=
  (fun ev => server.PostSubmit sid (Some ev.1) ev.2) <$> evs.

(** The client object after a successful [initializeSession] or
    [importKeys]: every field is set from the session identifier and the key
    pair. *)
Definition client_of (sid : string) (keys : paillier.KeyPair) : client.SecureVotingClient :=
  {| client.sessionId := Some sid;
     client.publicKey := Some (server.publicKeyJSON (paillier.publicKey keys));
     client.privateKey := Some (server.privateKeyJSON (paillier.privateKey keys));
     client.paillierPublicKey := Some (paillier.publicKey keys);
     client.paillierPrivateKey :=
       Some (paillier.privateKey keys, paillier.publicKey keys) |}.

(** A saved object whose modulus is not a number. *)
Definition example_saved_unreadable : client.exported.Keys :=
  {| client.exported.sessionId := "session_other";
     client.exported.publicKey := {| server.n := "3x"; server.g := "36" |};
     client.exported.privateKey := {| server.lambda := "12"; server.mu := "3" |} |}.

(** The four ballots of [completeVotingExample]: Yes, Yes, No, Yes. *)
Definition example_run (r1 r2 r3 r4 : Z) (t1 t2 t3 t4 : Date) : list Ballot :=
  [ {| vote := 1; randomness := r1; cast_at := t1 |};
    {| vote := 1; randomness := r2; cast_at := t2 |};
    {| vote := 0; randomness := r3; cast_at := t3 |};
    {| vote := 1; randomness := r4; cast_at := t4 |} ].

(** * Arithmetic primitives meet their contracts *)

(** Two proof steps that recur: splitting a conjunction into its parts, and
    closing a closed equation by evaluation. *)
Ltac conjuncts := intros; repeat match goal with |- _ ∧ _ => split end.
Ltac evaluate := vm_compute; reflexivity.

Section ModPow.

Lemma mod_pow_pos_spec (b m : Z) (e : positive) :
  arith.mod_pow_pos b e m = (b ^ Z.pos e) mod m.
Proof.
  induction e as [e IH|e IH|]; simpl arith.mod_pow_pos.
  - rewrite IH, Pos2Z.inj_xI.
    replace (2 * Z.pos e + 1) with (Z.pos e + Z.pos e + 1) by lia.
    rewrite !Z.pow_add_r, Z.pow_1_r by lia.
    rewrite <- Zmult_mod. rewrite Zmult_mod_idemp_l. reflexivity.
  - rewrite IH, Pos2Z.inj_xO.
    replace (2 * Z.pos e) with (Z.pos e + Z.pos e) by lia.
    rewrite Z.pow_add_r by lia.
    rewrite <- Zmult_mod. reflexivity.
  - rewrite Z.pow_1_r. reflexivity.
Qed.

Lemma mod_pow_spec (b e m : Z) :
  arith.mod_pow b e m = (b ^ e) mod m.
Proof.
  destruct e as [|e|e]; simpl arith.mod_pow.
  - reflexivity.
  - apply mod_pow_pos_spec.
  - rewrite Z.pow_neg_r by lia. symmetry. apply Zmod_0_l.
Qed.

End ModPow.

Section ExtendedEuclid.

Variables a m : Z.

(** The loop invariant: both remainders are multiples of [a] modulo [m]. *)
Lemma egcd_loop_spec (fuel : nat) :
  ∀ r0 r1 s0 s1 : Z,
    0 ≤ r0 → 0 ≤ r1 → (Z.to_nat r1 < fuel)%nat →
    r0 mod m = (s0 * a) mod m →
    r1 mod m = (s1 * a) mod m →
    ∃ d s, arith.egcd_loop fuel r0 r1 s0 s1 = (d, s)
           ∧ d = Z.gcd r0 r1 ∧ d mod m = (s * a) mod m.
Proof.
  induction fuel as [|fuel IH]; intros r0 r1 s0 s1 Hr0 Hr1 Hfuel H0 H1; [lia|].
  simpl. destruct (Z.eqb_spec r1 0) as [->|Hnz].
  - exists r0, s0. rewrite Z.gcd_0_r, Z.abs_eq by assumption. auto.
  - assert (Hmod : r0 - r0 / r1 * r1 = r0 mod r1).
    { rewrite Z.mod_eq by assumption. ring. }
    rewrite Hmod.
    pose proof (Z.mod_pos_bound r0 r1 ltac:(lia)) as Hb.
    destruct (IH r1 (r0 mod r1) s1 (s0 - r0 / r1 * s1)) as (d & s & He & Hd & Hs);
      try assumption; try lia.
    + rewrite <- Hmod.
      replace ((s0 - r0 / r1 * s1) * a) with (s0 * a - r0 / r1 * (s1 * a)) by ring.
      rewrite (Zminus_mod r0), (Zminus_mod (s0 * a)).
      rewrite (Zmult_mod _ r1), (Zmult_mod _ (s1 * a)), H0, H1. reflexivity.
    + exists d, s. split; [exact He|]. split; [|exact Hs].
      rewrite Hd, (Z.gcd_comm r1), Z.gcd_mod by assumption. apply Z.gcd_comm.
Qed.

Lemma mod_inverse_spec :
  1 < m →
  match arith.mod_inverse a m with
  | Ok x => Z.gcd a m = 1 ∧ 0 ≤ x < m ∧ (x * a) mod m = 1
  | Throw e => Z.gcd a m ≠ 1 ∧ e = NotInvertibleError
  end.
Proof.
  intros Hm. unfold arith.mod_inverse.
  pose proof (Z.mod_pos_bound a m ltac:(lia)) as Hb.
  destruct (egcd_loop_spec (S (Z.to_nat m)) m (a mod m) 0 1)
    as (d & s & He & Hd & Hs); try lia.
  - rewrite Z.mul_0_l, Zmod_0_l. apply Z_mod_same_full.
  - rewrite Z.mul_1_l. apply Zmod_mod.
  - rewrite He. rewrite Z.gcd_comm, Z.gcd_mod, Z.gcd_comm in Hd by lia.
    destruct (Z.eqb_spec d 1) as [->|Hne].
    + split; [congruence|]. split; [apply Z.mod_pos_bound; lia|].
      rewrite Zmult_mod_idemp_l, <- Hs. apply Z.mod_1_l. exact Hm.
    + split; [congruence|reflexivity].
Qed.

End ExtendedEuclid.

(** * Products of residues and Fermat's little theorem *)

Lemma product_cons (x : Z) (l : list Z) : product (x :: l) = x * product l.
Proof. reflexivity. Qed.

Lemma product_app (l k : list Z) : product (l ++ k) = product l * product k.
Proof.
  induction l as [|x l IH]; simpl.
  - destruct (product k); reflexivity.
  - fold (product (l ++ k)). fold (product l). rewrite IH. ring.
Qed.

Lemma product_Permutation (l k : list Z) : l ≡ₚ k → product l = product k.
Proof.
  induction 1 as [|x l k _ IH|x y l|l k j _ IH1 _ IH2]; simpl.
  - reflexivity.
  - fold (product l). fold (product k). rewrite IH. reflexivity.
  - fold (product l). ring.
  - congruence.
Qed.

Lemma product_coprime (m : Z) (l : list Z) :
  Forall (fun x => Z.coprime x m) l → Z.coprime (product l) m.
Proof.
  induction 1 as [|x l Hx _ IH]; simpl.
  - apply Z.coprime_1_l.
  - fold (product l). apply Z.coprime_mul_l; assumption.
Qed.

Lemma product_scaled (a m : Z) (l : list Z) :
  product ((fun x => (a * x) mod m) <$> l) mod m
  = (a ^ Z.of_nat (length l) * product l) mod m.
Proof.
  induction l as [|x l IH].
  - reflexivity.
  - rewrite fmap_cons, !product_cons, length_cons.
    rewrite Zmult_mod_idemp_l, (Zmult_mod (a * x)), IH, <- Zmult_mod.
    rewrite Nat2Z.inj_succ, Z.pow_succ_r by lia. f_equal. ring.
Qed.

Section Fermat.

Variables p a : Z.
Hypothesis prime_p : Z.prime p.
Hypothesis coprime_a : ¬ (p | a).

Lemma prime_gt_1 : 1 < p.
Proof. pose proof (Z.prime_ge_2 p prime_p). lia. Qed.

Lemma scale_nonzero (x : Z) : 1 ≤ x < p → 1 ≤ scale a p x < p.
Proof.
  intros Hx. pose proof prime_gt_1 as Hp.
  pose proof (Z.mod_pos_bound (a * x) p ltac:(lia)) as Hb.
  enough (scale a p x ≠ 0) by (unfold scale in *; lia).
  unfold scale. rewrite Z.mod_divide by lia.
  rewrite Z.divide_prime_mul by assumption. intros [H|H]; [tauto|].
  apply Z.divide_pos_le in H; lia.
Qed.

Lemma scale_injective (x y : Z) :
  1 ≤ x < p → 1 ≤ y < p → scale a p x = scale a p y → x = y.
Proof.
  intros Hx Hy Heq. pose proof prime_gt_1 as Hp. unfold scale in Heq.
  apply Z.cong_iff_0 in Heq. rewrite Z.mod_divide in Heq by lia.
  replace (a * x - a * y) with (a * (x - y)) in Heq by ring.
  apply Z.divide_prime_mul in Heq; [|assumption].
  destruct Heq as [H|[k Hk]]; [tauto|].
  assert (k = 0) by nia. lia.
Qed.

Lemma scaled_residues : scale a p <$> seqZ 1 (p - 1) ≡ₚ seqZ 1 (p - 1).
Proof.
  apply submseteq_length_Permutation.
  - apply NoDup_submseteq.
    + apply NoDup_fmap_2_strong; [|apply NoDup_seqZ].
      intros x y Hx Hy. rewrite elem_of_seqZ in Hx, Hy.
      apply scale_injective; lia.
    + intros y Hy. apply list_elem_of_fmap in Hy as (x & -> & Hx).
      rewrite elem_of_seqZ in Hx. rewrite elem_of_seqZ.
      pose proof (scale_nonzero x ltac:(lia)). lia.
  - rewrite length_fmap. lia.
Qed.

Theorem fermat_little : (a ^ (p - 1)) mod p = 1.
Proof.
  pose proof prime_gt_1 as Hp.
  pose proof (product_Permutation _ _ scaled_residues) as Hperm.
  pose proof (product_scaled a p (seqZ 1 (p - 1))) as Hscaled.
  change (fun x => (a * x) mod p) with (scale a p) in Hscaled.
  rewrite Hperm in Hscaled.
  rewrite length_seqZ, Z2Nat.id in Hscaled by lia.
  set (rs := seqZ 1 (p - 1)) in *.
  rename Hscaled into Hprod.
  assert (Hco : Z.coprime (product rs) p).
  { apply product_coprime, Forall_forall. intros x Hx.
    apply elem_of_seqZ in Hx. unfold Z.coprime. rewrite Z.gcd_comm.
    apply Z.coprime_prime_small; [assumption|lia]. }
  symmetry in Hprod. apply Z.cong_iff_0 in Hprod.
  replace (a ^ (p - 1) * product rs - product rs)
    with ((a ^ (p - 1) - 1) * product rs) in Hprod by ring.
  apply Z.cong_mul_cancel_r_coprime in Hprod; [|lia|assumption].
  rewrite <- (Z.mod_small 1 p) at 2 by lia. apply Z.cong_iff_0. exact Hprod.
Qed.

End Fermat.

(** * The algebra behind Paillier decryption *)

Lemma divide_coprime_mul (a b c : Z) :
  (a | c) → (b | c) → Z.coprime a b → (a * b | c).
Proof.
  intros [k ->] Hb Hco. rewrite Z.mul_comm in Hb.
  apply Z.gauss in Hb; [|unfold Z.coprime in Hco; rewrite Z.gcd_comm; exact Hco].
  destruct Hb as [j ->]. exists j. ring.
Qed.

Lemma coprime_divisor (a b d : Z) : Z.coprime a b → (d | b) → Z.coprime a d.
Proof.
  intros Hco Hd. unfold Z.coprime in *.
  assert (H : (Z.gcd a d | 1)).
  { rewrite <- Hco. apply Z.gcd_greatest; [apply Z.gcd_divide_l|].
    etransitivity; [apply Z.gcd_divide_r|exact Hd]. }
  pose proof (Z.gcd_nonneg a d). apply Z.divide_1_r_nonneg in H; lia.
Qed.

Lemma pow_cong_1 (x e m : Z) : 1 < m → 0 ≤ e → x mod m = 1 → (x ^ e) mod m = 1.
Proof.
  intros Hm He Hx. rewrite <- Z.mod_pow_l, Hx, Z.pow_1_l by assumption.
  apply Z.mod_1_l. exact Hm.
Qed.

(** [(1 + n t)^k = 1 + k n t] modulo [n^2]: every higher binomial term
    carries a factor [n^2]. *)
Lemma pow_one_plus (n t k : Z) :
  0 ≤ k → ((1 + n * t) ^ k) mod (n * n) = (1 + k * n * t) mod (n * n).
Proof.
  intros Hk. pattern k. apply natlike_ind; [| |exact Hk].
  - rewrite Z.pow_0_r. reflexivity.
  - clear k Hk. intros k Hk IH. rewrite Z.pow_succ_r by assumption.
    rewrite Zmult_mod, IH, <- Zmult_mod.
    replace ((1 + n * t) * (1 + k * n * t))
      with (1 + Z.succ k * n * t + (k * t * t) * (n * n)) by ring.
    apply Z_mod_plus_full.
Qed.

Lemma pow_prime_square (p x : Z) : 1 < p → x mod p = 1 → (x ^ p) mod (p * p) = 1.
Proof.
  intros Hp Hx.
  assert (Hform : x = 1 + p * (x / p)).
  { pose proof (Z.div_mod x p ltac:(lia)). lia. }
  rewrite Hform, pow_one_plus by lia.
  replace (1 + p * p * (x / p)) with (1 + (x / p) * (p * p)) by ring.
  rewrite Z_mod_plus_full. apply Z.mod_1_l. nia.
Qed.

Lemma prime_square_order (p r : Z) :
  Z.prime p → ¬ (p | r) → (r ^ (p * (p - 1))) mod (p * p) = 1.
Proof.
  intros Hp Hr. pose proof (prime_gt_1 p Hp) as Hgt.
  rewrite (Z.mul_comm p), Z.pow_mul_r by lia.
  apply pow_prime_square; [exact Hgt|].
  apply fermat_little; assumption.
Qed.

Lemma L_one_plus (n k : Z) :
  1 < n → paillier.L ((1 + k * n) mod (n * n)) n = k mod n.
Proof.
  intros Hn. unfold paillier.L.
  pose proof (Z.mod_pos_bound k n ltac:(lia)) as Hb.
  assert (Hred : (1 + k * n) mod (n * n) = 1 + (k mod n) * n).
  { rewrite Zplus_mod, Zmult_mod_distr_r, (Z.mod_1_l (n * n)) by nia.
    apply Z.mod_small. nia. }
  rewrite Hred. replace (1 + k mod n * n - 1) with (k mod n * n) by ring.
  apply Z.div_mul. lia.
Qed.

Section TwoPrimes.

Variables p q : Z.
Hypothesis prime_p : Z.prime p.
Hypothesis prime_q : Z.prime q.
Hypothesis distinct : p ≠ q.

Local Abbreviation n := (p * q).
Local Abbreviation lam := (Z.lcm (p - 1) (q - 1)).

Lemma modulus_gt_1 : 1 < n.
Proof.
  pose proof (prime_gt_1 p prime_p). pose proof (prime_gt_1 q prime_q).
  nia.
Qed.

Lemma primes_coprime : Z.coprime p q.
Proof.
  apply Z.coprime_prime_l; [exact prime_p|].
  rewrite Z.divide_prime_prime_iff by assumption. exact distinct.
Qed.

Lemma squares_coprime : Z.coprime (p * p) (q * q).
Proof.
  pose proof primes_coprime as H.
  repeat (apply Z.coprime_mul_l || apply Z.coprime_mul_r); exact H.
Qed.

Lemma unit_not_multiple (r : Z) : Z.coprime r n → ¬ (p | r) ∧ ¬ (q | r).
Proof.
  intros Hr. pose proof (prime_gt_1 p prime_p). pose proof (prime_gt_1 q prime_q).
  split; intros Hd.
  - assert (H1 : (p | 1)).
    { rewrite <- Hr. apply Z.gcd_greatest; [exact Hd|]. exists q. ring. }
    apply Z.divide_1_r_nonneg in H1; lia.
  - assert (H1 : (q | 1)).
    { rewrite <- Hr. apply Z.gcd_greatest; [exact Hd|]. exists p. reflexivity. }
    apply Z.divide_1_r_nonneg in H1; lia.
Qed.

(** Raising a unit to [n * lcm(p-1, q-1)] gives 1 modulo [n^2]. *)
Lemma unit_order (r : Z) : Z.coprime r n → (r ^ (n * lam)) mod (n * n) = 1.
Proof.
  intros Hr. destruct (unit_not_multiple r Hr) as [Hp Hq].
  pose proof (prime_gt_1 p prime_p) as Hp1.
  pose proof (prime_gt_1 q prime_q) as Hq1.
  pose proof modulus_gt_1 as Hn.
  pose proof (Z.lcm_nonneg (p - 1) (q - 1)) as Hlam.
  destruct (Z.divide_lcm_l (p - 1) (q - 1)) as [kp Hkp].
  destruct (Z.divide_lcm_r (p - 1) (q - 1)) as [kq Hkq].
  assert (0 ≤ kp) by nia. assert (0 ≤ kq) by nia.
  assert (Hmodp : (r ^ (n * lam)) mod (p * p) = 1).
  { replace (n * lam) with (p * (p - 1) * (q * kp)) by (rewrite Hkp; ring).
    rewrite Z.pow_mul_r by nia.
    apply pow_cong_1; [nia|nia|]. apply prime_square_order; assumption. }
  assert (Hmodq : (r ^ (n * lam)) mod (q * q) = 1).
  { replace (n * lam) with (q * (q - 1) * (p * kq)) by (rewrite Hkq; ring).
    rewrite Z.pow_mul_r by nia.
    apply pow_cong_1; [nia|nia|]. apply prime_square_order; assumption. }
  assert (Hdiv : (n * n | r ^ (n * lam) - 1)).
  { replace (n * n) with ((p * p) * (q * q)) by ring.
    apply divide_coprime_mul; [| |apply squares_coprime].
    - apply Z.mod_divide; [nia|]. apply Z.cong_iff_0.
      rewrite Hmodp. symmetry. apply Z.mod_1_l. nia.
    - apply Z.mod_divide; [nia|]. apply Z.cong_iff_0.
      rewrite Hmodq. symmetry. apply Z.mod_1_l. nia. }
  apply Z.mod_divide in Hdiv; [|nia]. apply Z.cong_iff_0 in Hdiv.
  rewrite Hdiv. apply Z.mod_1_l. nia.
Qed.

Hypothesis paillier_condition : Z.coprime n ((p - 1) * (q - 1)).

Lemma lambda_unit : Z.coprime lam n.
Proof.
  unfold Z.coprime. rewrite Z.gcd_comm.
  apply (coprime_divisor n ((p - 1) * (q - 1))); [exact paillier_condition|].
  apply Z.lcm_least; [exists (q - 1); ring|exists (p - 1); ring].
Qed.

Lemma lambda_nonneg : 0 ≤ lam.
Proof. apply Z.lcm_nonneg. Qed.

(** Key generation succeeds on such primes and returns the textbook key. *)
Lemma generate_key_pair_spec :
  ∃ mu, paillier.generate_key_pair p q
        = Ok {| paillier.publicKey := {| paillier.n := n; paillier.g := n + 1 |};
                paillier.privateKey := {| paillier.lambda := lam; paillier.mu := mu |} |}
        ∧ 0 ≤ mu < n ∧ (mu * lam) mod n = 1.
Proof.
  pose proof modulus_gt_1 as Hn.
  assert (Hpow : arith.mod_pow (n + 1) lam (n * n) = 1 + (lam mod n) * n).
  { rewrite mod_pow_spec.
    replace (n + 1) with (1 + n * 1) by ring.
    rewrite pow_one_plus by apply lambda_nonneg.
    replace (1 + lam * n * 1) with (1 + lam * n) by ring.
    pose proof (Z.mod_pos_bound lam n ltac:(lia)).
    rewrite Zplus_mod, Zmult_mod_distr_r, (Z.mod_1_l (n * n)) by nia.
    apply Z.mod_small. nia. }
  unfold paillier.generate_key_pair.
  destruct (Z.eqb_spec p q) as [|_]; [contradiction|].
  rewrite paillier_condition. simpl.
  rewrite Hpow. unfold paillier.L.
  replace (1 + lam mod n * n - 1) with (lam mod n * n) by ring.
  rewrite Z_mod_mult, Z.div_mul by lia. simpl.
  pose proof (mod_inverse_spec (lam mod n) n Hn) as Hinv.
  destruct (arith.mod_inverse (lam mod n) n) as [mu|e].
  - destruct Hinv as (_ & Hrange & Hmu). exists mu. split; [reflexivity|].
    split; [exact Hrange|]. rewrite Zmult_mod_idemp_r in Hmu. exact Hmu.
  - destruct Hinv as [Hbad _]. exfalso. apply Hbad.
    rewrite Z.gcd_mod_l. apply lambda_unit.
Qed.

End TwoPrimes.

(** * Decryption of well-formed ciphertexts *)

Lemma valid_keys_facts (keys : paillier.KeyPair) :
  valid_keys keys → key_facts (paillier.publicKey keys) (paillier.privateKey keys).
Proof.
  intros (p & q & Hp & Hq & Hgen).
  assert (Hguard : p ≠ q ∧ Z.coprime (p * q) ((p - 1) * (q - 1))).
  { unfold paillier.generate_key_pair in Hgen.
    destruct (Z.eqb_spec p q); [discriminate|].
    destruct (Z.eqb_spec (Z.gcd (p * q) ((p - 1) * (q - 1))) 1); [|discriminate].
    split; assumption. }
  destruct Hguard as [Hne Hco].
  destruct (generate_key_pair_spec p q Hp Hq Hne Hco) as (mu & Heq & Hmu & Hinv).
  rewrite Heq in Hgen. injection Hgen as <-. simpl.
  constructor; simpl.
  - apply modulus_gt_1; assumption.
  - reflexivity.
  - apply Z.lcm_nonneg.
  - exact Hinv.
  - intros r Hr. apply unit_order; assumption.
Qed.

Section Decryption.

Variable pub : paillier.PublicKey.
Variable priv : paillier.PrivateKey.
Hypothesis facts : key_facts pub priv.

Local Abbreviation n := (paillier.n pub).
Local Abbreviation n2 := (paillier._n2 pub).

Lemma n2_gt_1 : 1 < n2.
Proof. pose proof (modulus_big _ _ facts). unfold paillier._n2. nia. Qed.

Lemma generator_unit : Z.coprime (paillier.g pub) n.
Proof.
  rewrite (generator_form _ _ facts). unfold Z.coprime.
  rewrite Z.gcd_comm, Z.add_comm, Z.gcd_add_diag_r. apply Z.gcd_1_r.
Qed.

Lemma encodes_unit (M c : Z) : encodes pub M c → Z.coprime c n2.
Proof.
  intros (HM & R & HR & Hc). unfold Z.coprime.
  rewrite <- Z.gcd_mod_l. rewrite Hc, Z.gcd_mod_l.
  pose proof (modulus_big _ _ facts).
  apply Z.coprime_mul_l; apply Z.coprime_pow_l; try lia;
    unfold paillier._n2; apply Z.coprime_mul_r;
    solve [apply generator_unit | exact HR].
Qed.

Lemma encodes_power (M c : Z) :
  encodes pub M c →
  (c ^ paillier.lambda priv) mod n2 = (1 + (M * paillier.lambda priv) * n) mod n2.
Proof.
  intros (HM & R & HR & Hc).
  pose proof (lambda_pos _ _ facts) as Hlam.
  pose proof (modulus_big _ _ facts) as Hn.
  rewrite <- Z.mod_pow_l, Hc, Z.mod_pow_l.
  rewrite Z.pow_mul_l, <- !Z.pow_mul_r by lia.
  rewrite Zmult_mod, (units_vanish _ _ facts R HR).
  rewrite (generator_form _ _ facts).
  replace (paillier.n pub + 1) with (1 + paillier.n pub * 1) by ring.
  unfold paillier._n2.
  rewrite pow_one_plus by nia.
  rewrite Z.mul_1_r, Zmod_mod. f_equal. ring.
Qed.

(** Decrypting a well-formed ciphertext returns its plaintext total,
    reduced modulo [n]. *)
Lemma decrypt_encodes (M c : Z) :
  encodes pub M c → 0 ≤ c < n2 → paillier.decrypt priv pub c = Ok (M mod n).
Proof.
  intros Henc Hrange. unfold paillier.decrypt, paillier.in_ciphertext_group.
  rewrite (encodes_unit M c Henc).
  destruct (Z.leb_spec 0 c); [|lia]. destruct (Z.ltb_spec c n2); [|lia].
  simpl. f_equal. rewrite mod_pow_spec.
  rewrite (encodes_power M c Henc).
  pose proof (modulus_big _ _ facts) as Hn.
  unfold paillier._n2. rewrite L_one_plus by exact Hn.
  rewrite Zmult_mod_idemp_l.
  replace (M * paillier.lambda priv * paillier.mu priv)
    with (M * (paillier.mu priv * paillier.lambda priv)) by ring.
  rewrite <- Zmult_mod_idemp_r. pose proof (mu_inverse _ _ facts) as Hmu.
  rewrite Hmu, Z.mul_1_r. reflexivity.
Qed.

Lemma encrypt_encodes (m r : Z) :
  0 ≤ m → Z.coprime r n → encodes pub m (paillier.encrypt pub m r).
Proof.
  intros Hm Hr. split; [exact Hm|]. exists r. split; [exact Hr|].
  unfold paillier.encrypt. rewrite !mod_pow_spec, Zmod_mod, <- Zmult_mod.
  reflexivity.
Qed.

Lemma encrypt_range (m r : Z) : 0 ≤ paillier.encrypt pub m r < n2.
Proof. apply Z.mod_pos_bound. pose proof n2_gt_1. lia. Qed.

Lemma addition_encodes (M1 M2 c1 c2 : Z) :
  encodes pub M1 c1 → encodes pub M2 c2 →
  encodes pub (M1 + M2) (paillier.addition pub c1 c2).
Proof.
  intros (HM1 & R1 & HR1 & Hc1) (HM2 & R2 & HR2 & Hc2).
  split; [lia|]. exists (R1 * R2). split; [apply Z.coprime_mul_l; assumption|].
  pose proof (modulus_big _ _ facts) as Hn.
  unfold paillier.addition. rewrite Zmod_mod, Zmult_mod, Hc1, Hc2, <- Zmult_mod.
  f_equal. rewrite Z.pow_add_r, Z.pow_mul_l by lia. ring.
Qed.

Lemma addition_range (c1 c2 : Z) : 0 ≤ paillier.addition pub c1 c2 < n2.
Proof. apply Z.mod_pos_bound. pose proof n2_gt_1. lia. Qed.

End Decryption.

(** * Decimal strings: [BigInt] reads back what [toString] prints *)

Lemma string_of_uint_digits (d : Decimal.uint) :
  all_chars is_decimal_digit (NilEmpty.string_of_uint d) = true.
Proof. induction d; simpl; auto. Qed.

Lemma digit_not_white (c : ascii) :
  is_decimal_digit c = true → js.is_white_space c = false.
Proof.
  unfold is_decimal_digit, js.is_white_space. intros H.
  apply andb_true_iff in H as [H1 H2].
  apply N.leb_le in H1, H2.
  destruct (N_of_ascii c) as [|k]; [reflexivity|].
  do 8 (destruct k as [k|k|]; try reflexivity; try lia).
Qed.

Lemma trim_end_digits (s : string) :
  all_chars is_decimal_digit s = true → js.trim_end s = s.
Proof.
  induction s as [|c s IH]; simpl; [reflexivity|].
  intros H. apply andb_true_iff in H as [Hc Hs].
  rewrite (IH Hs), (digit_not_white c Hc). destruct s; reflexivity.
Qed.

Lemma trim_digits (s : string) :
  all_chars is_decimal_digit s = true → js.trim s = s.
Proof.
  intros H. unfold js.trim.
  destruct s as [|c s]; [reflexivity|]. simpl js.trim_start.
  simpl in H. apply andb_true_iff in H as [Hc Hs].
  rewrite (digit_not_white c Hc). apply trim_end_digits. simpl.
  rewrite Hc, Hs. reflexivity.
Qed.

Lemma string_to_bigint_digits (s : string) :
  s ≠ EmptyString → all_chars is_decimal_digit s = true →
  js.string_to_bigint s = js.decimal_digits s.
Proof.
  intros Hne H. unfold js.string_to_bigint. rewrite (trim_digits s H).
  destruct s as [|c s]; [contradiction|].
  simpl in H. apply andb_true_iff in H as [Hc Hs].
  destruct c as [[] [] [] [] [] [] [] []]; try discriminate Hc; try reflexivity.
  destruct s as [|c s]; [reflexivity|].
  simpl in Hs. apply andb_true_iff in Hs as [Hc' _].
  destruct c as [[] [] [] [] [] [] [] []]; try discriminate Hc'; reflexivity.
Qed.

Lemma string_to_bigint_minus (s : string) :
  s ≠ EmptyString → all_chars is_decimal_digit s = true →
  js.string_to_bigint (String "-" s) = Z.opp <$> js.decimal_digits s.
Proof.
  intros Hne H. unfold js.string_to_bigint, js.trim.
  change (js.trim_start (String "-" s)) with (String "-" s).
  simpl js.trim_end. rewrite (trim_end_digits s H).
  destruct s; [contradiction|reflexivity].
Qed.

Lemma decimal_digits_to_uint (p : positive) :
  js.decimal_digits (NilZero.string_of_uint (Pos.to_uint p)) = Some (Z.pos p).
Proof.
  unfold js.decimal_digits.
  rewrite NilZero.usu by apply Unsigned.to_uint_nonnil.
  simpl. unfold Z.of_uint. rewrite Unsigned.of_to. reflexivity.
Qed.

Lemma string_of_to_uint (p : positive) :
  NilZero.string_of_uint (Pos.to_uint p) ≠ EmptyString
  ∧ all_chars is_decimal_digit (NilZero.string_of_uint (Pos.to_uint p)) = true.
Proof.
  pose proof (Unsigned.to_uint_nonnil p) as Hnil.
  pose proof (string_of_uint_digits (Pos.to_uint p)) as Hd.
  unfold NilZero.string_of_uint.
  destruct (Pos.to_uint p); try contradiction; split; try discriminate; exact Hd.
Qed.

(** Printing a big integer and reading it back is the identity. *)
Lemma BigInt_toString (z : Z) : js.BigInt (js.toString z) = Ok z.
Proof.
  unfold js.BigInt, js.toString.
  destruct z as [|p|p]; simpl Z.to_int; simpl NilZero.string_of_int.
  - reflexivity.
  - destruct (string_of_to_uint p) as [Hne Hd].
    rewrite string_to_bigint_digits, decimal_digits_to_uint by assumption.
    reflexivity.
  - destruct (string_of_to_uint p) as [Hne Hd].
    rewrite string_to_bigint_minus, decimal_digits_to_uint by assumption.
    reflexivity.
Qed.

(** * The tally loop *)

Lemma readable_ciphertext (v : server.Vote) :
  readable v → js.BigInt (server.encryptedValue v) = Ok (ciphertext v).
Proof. intros [c Hc]. unfold ciphertext. rewrite Hc. reflexivity. Qed.

Lemma sum_loop_spec (pub : paillier.PublicKey) (votes : list server.Vote) :
  Forall readable votes →
  ∀ acc, server.sum_loop pub acc votes
         = Ok (match votes with
               | [] => acc
               | _ => (acc * product (ciphertext <$> votes)) mod paillier._n2 pub
               end).
Proof.
  induction 1 as [|v votes Hv Hvotes IH]; intros acc; [reflexivity|].
  simpl server.sum_loop. rewrite (readable_ciphertext v Hv). simpl.
  rewrite IH. f_equal.
  change (list_fmap _ _ ciphertext votes) with (ciphertext <$> votes).
  unfold paillier.addition. destruct votes as [|w votes].
  - simpl. f_equal. ring.
  - rewrite Zmult_mod_idemp_l. f_equal. ring.
Qed.

Lemma homomorphic_sum_spec (session : server.Session) (votes : list server.Vote) (n g : Z) :
  js.BigInt (server.n (server.publicKey session)) = Ok n →
  js.BigInt (server.g (server.publicKey session)) = Ok g →
  Forall readable votes → votes ≠ [] →
  server.homomorphic_sum session votes
  = Ok (match votes with
        | [v] => ciphertext v
        | _ => product (ciphertext <$> votes) mod (n * n)
        end).
Proof.
  intros Hn Hg Hread Hne. unfold server.homomorphic_sum.
  rewrite Hn, Hg. simpl.
  destruct votes as [|v votes]; [contradiction|].
  apply Forall_cons in Hread as [Hv Hvotes].
  rewrite (readable_ciphertext v Hv). simpl.
  rewrite (sum_loop_spec _ votes Hvotes). reflexivity.
Qed.

Lemma compute_spec (st : server.State) (sid : string) (session : server.Session)
    (votes : list server.Vote) :
  server.votingSessions st !! sid = Some session →
  server.encryptedVotes st !! sid = Some votes →
  server.compute sid st
  = (st, match votes with
         | [] => server.Failure 400 "No votes to compute"
         | _ => match server.homomorphic_sum session votes with
                | Ok s => server.ComputeResponse (js.toString s) (length votes)
                | Throw e => server.Caught e
                end
         end).
Proof.
  intros Hs Hv. unfold server.compute. rewrite Hs, Hv.
  destruct votes; [reflexivity|]. simpl.
  destruct (server.homomorphic_sum _ _); reflexivity.
Qed.

Lemma in_range_readable (n : Z) (v : server.Vote) : in_range n v → readable v.
Proof. intros (c & Hc & _). exists c. exact Hc. Qed.

Lemma in_range_ciphertext (n : Z) (v : server.Vote) :
  in_range n v → 0 ≤ ciphertext v < n * n.
Proof. intros (c & Hc & Hr). unfold ciphertext. rewrite Hc. exact Hr. Qed.

Lemma homomorphic_sum_in_range (session : server.Session)
    (votes : list server.Vote) (n g : Z) :
  js.BigInt (server.n (server.publicKey session)) = Ok n →
  js.BigInt (server.g (server.publicKey session)) = Ok g →
  Forall (in_range n) votes → votes ≠ [] →
  server.homomorphic_sum session votes
  = Ok (product (ciphertext <$> votes) mod (n * n)).
Proof.
  intros Hn Hg Hrange Hne.
  rewrite (homomorphic_sum_spec session votes n g Hn Hg); [|  |exact Hne].
  - destruct votes as [|v [|w votes]]; try reflexivity.
    apply Forall_cons in Hrange as [Hv _].
    pose proof (in_range_ciphertext n v Hv).
    simpl. rewrite Z.mul_1_r, Z.mod_small by assumption. reflexivity.
  - eapply Forall_impl; [exact Hrange|]. apply in_range_readable.
Qed.

(** C9.  For a session whose stored ciphertexts all lie in [[0, n^2)], a
    store holding any permutation of the same votes gets the identical
    response from the compute route; when there are votes, the response
    carries the product of the ciphertexts modulo [n^2]. *)
Theorem compute_order_independent (st st' : server.State) (sid : string)
    (session : server.Session) (votes votes' : list server.Vote) (n g : Z) :
  server.votingSessions st !! sid = Some session →
  server.encryptedVotes st !! sid = Some votes →
  server.votingSessions st' !! sid = Some session →
  server.encryptedVotes st' !! sid = Some votes' →
  js.BigInt (server.n (server.publicKey session)) = Ok n →
  js.BigInt (server.g (server.publicKey session)) = Ok g →
  Forall (in_range n) votes →
  votes ≡ₚ votes' →
  (server.compute sid st').2 = (server.compute sid st).2
  ∧ (votes ≠ [] →
     (server.compute sid st).2
     = server.ComputeResponse
         (js.toString (product (ciphertext <$> votes) mod (n * n))) (length votes)).
Proof.
  intros Hs Hv Hs' Hv' Hn Hg Hrange Hperm.
  rewrite (compute_spec st sid session votes Hs Hv).
  rewrite (compute_spec st' sid session votes' Hs' Hv').
  destruct votes as [|v votes].
  { apply Permutation_nil_l in Hperm. subst votes'. split; [reflexivity|contradiction]. }
  destruct votes' as [|v' votes'].
  { apply Permutation_nil_r in Hperm. discriminate. }
  assert (Hrange' : Forall (in_range n) (v' :: votes')) by (rewrite <- Hperm; exact Hrange).
  rewrite (homomorphic_sum_in_range session (v :: votes) n g) by (assumption || discriminate).
  rewrite (homomorphic_sum_in_range session (v' :: votes') n g) by (assumption || discriminate).
  rewrite <- (product_Permutation _ _ (fmap_Permutation ciphertext _ _ Hperm)).
  rewrite <- (Permutation_length Hperm).
  split; [reflexivity|]. intros _. reflexivity.
Qed.

Lemma no_session_some (this : client.SecureVotingClient) (sid : string) :
  client.sessionId this = Some sid → sid ≠ EmptyString → client.no_session this = false.
Proof.
  intros H Hne. unfold client.no_session. rewrite H.
  destruct sid; [contradiction|reflexivity].
Qed.

(** C7.  On a session without stored votes the compute route answers with
    status 400 and the error [No votes to compute] (the [EmptyTallyError] of
    the specification); no aggregate is produced, the tables are left as they
    were, and the client's [computeResults] raises an error to its caller. *)
Theorem compute_empty_session (st : server.State) (sid : string)
    (session : server.Session) :
  server.votingSessions st !! sid = Some session →
  server.encryptedVotes st !! sid = Some [] →
  server.compute sid st = (st, server.Failure 400 "No votes to compute")
  ∧ server.ok (server.compute sid st).2 = false
  ∧ ∀ this, client.sessionId this = Some sid → sid ≠ EmptyString →
      client.computeResults this st = (st, Throw (Error "Failed to compute results")).
Proof.
  intros Hs Hv. rewrite (compute_spec st sid session [] Hs Hv).
  repeat split. intros this Hsid Hne. unfold client.computeResults.
  rewrite (no_session_some this sid Hsid Hne), Hsid.
  rewrite (compute_spec st sid session [] Hs Hv). reflexivity.
Qed.

(** * Submission *)

Lemma submit_spec (st : server.State) (sid ev : string) (now : Date)
    (session : server.Session) (votes : list server.Vote) :
  server.votingSessions st !! sid = Some session →
  server.encryptedVotes st !! sid = Some votes →
  server.submit sid (Some ev) now st
  = (add_vote sid ev now session votes st,
     server.SubmitResponse (S (server.voteCount session))).
Proof. intros Hs Hv. unfold server.submit. rewrite Hs, Hv. reflexivity. Qed.

Lemma add_vote_votes (st : server.State) (sid ev : string) (now : Date)
    (session : server.Session) (votes : list server.Vote) :
  server.encryptedVotes (add_vote sid ev now session votes st) !! sid
  = Some (votes ++ [{| server.encryptedValue := ev; server.timestamp := now |}]).
Proof. simpl. apply lookup_insert_eq. Qed.

Lemma add_vote_session (st : server.State) (sid ev : string) (now : Date)
    (session : server.Session) (votes : list server.Vote) :
  server.votingSessions (add_vote sid ev now session votes st) !! sid
  = Some {| server.publicKey := server.publicKey session;
            server.createdAt := server.createdAt session;
            server.voteCount := S (server.voteCount session) |}.
Proof. simpl. apply lookup_insert_eq. Qed.

Lemma compute_state (sid : string) (st : server.State) : (server.compute sid st).1 = st.
Proof.
  unfold server.compute.
  destruct (server.votingSessions st !! sid); [|reflexivity].
  destruct (server.encryptedVotes st !! sid) as [votes|]; [|reflexivity].
  destruct (length votes =? 0)%nat; [reflexivity|].
  destruct (server.homomorphic_sum _ _); reflexivity.
Qed.

(** A session, once created, stays in both tables whatever is requested. *)
Lemma handle_keeps_session (rq : server.Request) (st : server.State) (sid : string) :
  is_Some (server.votingSessions st !! sid) →
  is_Some (server.encryptedVotes st !! sid) →
  is_Some (server.votingSessions (server.handle rq st).1 !! sid)
  ∧ is_Some (server.encryptedVotes (server.handle rq st).1 !! sid).
Proof.
  intros Hs Hv.
  destruct rq as [[k|e] r1 r2 now|sid' [ev|] now|sid'|sid']; simpl.
  - rewrite !lookup_insert_is_Some. destruct (decide (server.generateSessionId r1 r2 = sid)); auto.
  - auto.
  - unfold server.submit.
    destruct (server.votingSessions st !! sid'); [|auto].
    destruct (server.encryptedVotes st !! sid'); [|auto].
    simpl. rewrite !lookup_insert_is_Some. destruct (decide (sid' = sid)); auto.
  - unfold server.submit. destruct (server.votingSessions st !! sid'); auto.
  - rewrite compute_state. auto.
  - unfold server.session.
    destruct (server.votingSessions st !! sid'); [|auto].
    destruct (server.encryptedVotes st !! sid'); auto.
Qed.

Lemma run_keeps_session (rqs : list server.Request) (st : server.State) (sid : string) :
  is_Some (server.votingSessions st !! sid) →
  is_Some (server.encryptedVotes st !! sid) →
  is_Some (server.votingSessions (server.run rqs st) !! sid)
  ∧ is_Some (server.encryptedVotes (server.run rqs st) !! sid).
Proof.
  revert st. induction rqs as [|rq rqs IH]; intros st Hs Hv; [auto|].
  destruct (handle_keeps_session rq st sid Hs Hv) as [Hs' Hv'].
  apply (IH _ Hs' Hv').
Qed.

(** C4, as the code has it.  The server keeps no tally status.  The compute
    route leaves both tables as they were, and whatever requests are served
    after it, a ballot then submitted to the session is accepted like any
    other: it is appended to the session's sequence, and the session's stored
    vote count grows by one and is the count reported. *)
Theorem submit_after_compute (st : server.State) (sid : string)
    (rqs : list server.Request) (ev : string) (now : Date) :
  is_Some (server.votingSessions st !! sid) →
  is_Some (server.encryptedVotes st !! sid) →
  (server.compute sid st).1 = st
  ∧ ∃ session votes,
      let later := server.run rqs (server.compute sid st).1 in
      server.votingSessions later !! sid = Some session
      ∧ server.encryptedVotes later !! sid = Some votes
      ∧ (server.submit sid (Some ev) now later).2
        = server.SubmitResponse (S (server.voteCount session))
      ∧ server.encryptedVotes (server.submit sid (Some ev) now later).1 !! sid
        = Some (votes ++ [{| server.encryptedValue := ev; server.timestamp := now |}])
      ∧ server.votingSessions (server.submit sid (Some ev) now later).1 !! sid
        = Some {| server.publicKey := server.publicKey session;
                  server.createdAt := server.createdAt session;
                  server.voteCount := S (server.voteCount session) |}.
Proof.
  intros Hs Hv. rewrite compute_state. split; [reflexivity|].
  destruct (run_keeps_session rqs st sid Hs Hv) as [[session Hs'] [votes Hv']].
  exists session, votes. simpl.
  rewrite (submit_spec _ sid ev now session votes Hs' Hv').
  split; [exact Hs'|]. split; [exact Hv'|]. split; [reflexivity|].
  split; [apply add_vote_votes|apply add_vote_session].
Qed.

(** C5, as the code has it.  The submit route validates no range: whatever
    integer [c] the submitted string denotes, inside or outside [[0, n^2)],
    and also when it denotes none, the string is appended to the session's
    sequence and the session's stored vote count grows by one and is the
    count reported.  The only submission that is
    refused on an existing session is one that carries no string; it is
    answered with status 500 and leaves the tables unchanged. *)
Theorem submit_without_validation (st : server.State) (sid : string) (now : Date)
    (session : server.Session) (votes : list server.Vote) :
  server.votingSessions st !! sid = Some session →
  server.encryptedVotes st !! sid = Some votes →
  (∀ ev : string,
      (server.submit sid (Some ev) now st).2
      = server.SubmitResponse (S (server.voteCount session))
      ∧ server.encryptedVotes (server.submit sid (Some ev) now st).1 !! sid
        = Some (votes ++ [{| server.encryptedValue := ev; server.timestamp := now |}])
      ∧ server.votingSessions (server.submit sid (Some ev) now st).1 !! sid
        = Some {| server.publicKey := server.publicKey session;
                  server.createdAt := server.createdAt session;
                  server.voteCount := S (server.voteCount session) |})
  ∧ server.submit sid None now st = (st, server.Caught TypeError).
Proof.
  intros Hs Hv. split.
  - intros ev. rewrite (submit_spec st sid ev now session votes Hs Hv).
    split; [reflexivity|]. split; [apply add_vote_votes|apply add_vote_session].
  - unfold server.submit. rewrite Hs. reflexivity.
Qed.

(** C6, as the code has it.  A successful run of the compute route hands the
    aggregate to the caller, as the decimal string [encryptedResult] together
    with the number of votes, and assigns nothing: both tables are as before,
    so the session record holds neither the aggregate nor a status.  Running
    the route again on the same store returns the same response. *)
Theorem compute_returns_without_storing (st : server.State) (sid er : string)
    (count : nat) :
  (server.compute sid st).2 = server.ComputeResponse er count →
  (server.compute sid st).1 = st
  ∧ server.compute sid (server.compute sid st).1 = server.compute sid st
  ∧ ∃ session votes encryptedSum,
      server.votingSessions st !! sid = Some session
      ∧ server.encryptedVotes st !! sid = Some votes
      ∧ server.homomorphic_sum session votes = Ok encryptedSum
      ∧ er = js.toString encryptedSum ∧ count = length votes.
Proof.
  intros Hresp. rewrite compute_state. split; [reflexivity|]. split; [reflexivity|].
  unfold server.compute in Hresp.
  destruct (server.votingSessions st !! sid) as [session|]; [|discriminate].
  destruct (server.encryptedVotes st !! sid) as [votes|]; [|discriminate].
  destruct (length votes =? 0)%nat; [discriminate|].
  destruct (server.homomorphic_sum session votes) as [s|e] eqn:Hsum; [|discriminate].
  injection Hresp as <- <-. exists session, votes, s. auto.
Qed.

(** * Session snapshots *)

Lemma substring_0_0 (s : string) : String.substring 0 0 s = EmptyString.
Proof. destruct s; reflexivity. Qed.

Lemma substring_app_long (k : nat) (s t : string) :
  (k ≤ String.length s)%nat →
  String.substring 0 k (String.app s t) = String.substring 0 k s.
Proof.
  revert s. induction k as [|k IH]; intros s Hk.
  - rewrite !substring_0_0. reflexivity.
  - destruct s as [|c s]; simpl in Hk; [lia|].
    simpl. f_equal. apply IH. lia.
Qed.

Lemma substring_length_long (k : nat) (s : string) :
  (k ≤ String.length s)%nat → String.length (String.substring 0 k s) = k.
Proof.
  revert s. induction k as [|k IH]; intros s Hk.
  - destruct s; reflexivity.
  - destruct s as [|c s]; simpl in Hk; [lia|].
    simpl. f_equal. apply IH. lia.
Qed.

Lemma substring_short (k : nat) (s : string) :
  (String.length s ≤ k)%nat → String.substring 0 k s = s.
Proof.
  revert k. induction s as [|c s IH]; intros k Hk.
  - destruct k; reflexivity.
  - destruct k as [|k]; simpl in Hk; [lia|].
    simpl. f_equal. apply IH. lia.
Qed.

Lemma app_length_string (s t : string) :
  String.length (String.app s t) = (String.length s + String.length t)%nat.
Proof. induction s as [|c s IH]; simpl; [reflexivity|]. rewrite IH. reflexivity. Qed.

Lemma session_spec (st : server.State) (sid : string) (session : server.Session)
    (votes : list server.Vote) :
  server.votingSessions st !! sid = Some session →
  server.encryptedVotes st !! sid = Some votes →
  server.session sid st
  = (st, server.SessionResponse sid (server.voteCount session)
           (server.createdAt session) (server.publicKey session)
           (server.view <$> votes)).
Proof. intros Hs Hv. unfold server.session. rewrite Hs, Hv. reflexivity. Qed.

(** C10, as the code has it.  The snapshot route shows, for each stored
    ballot, the first 50 characters of its string followed by [...], and
    changes nothing.  A string longer than 50 characters is cut to a proper
    prefix, and a store that holds one cannot be told from snapshots: some
    other sequence of ballots for the session gives the same response.  A
    string of at most 50 characters is shown whole. *)
Theorem session_snapshot_abbreviates (st : server.State) (sid : string)
    (session : server.Session) (votes : list server.Vote) :
  server.votingSessions st !! sid = Some session →
  server.encryptedVotes st !! sid = Some votes →
  server.session sid st
  = (st, server.SessionResponse sid (server.voteCount session)
           (server.createdAt session) (server.publicKey session)
           ((fun v => {| server.encrypted :=
                           String.app (String.substring 0 50 (server.encryptedValue v)) "...";
                         server.view_timestamp := server.timestamp v |}) <$> votes))
  ∧ Forall (fun v => (50 < String.length (server.encryptedValue v))%nat →
                     (String.length (String.substring 0 50 (server.encryptedValue v))
                      < String.length (server.encryptedValue v))%nat) votes
  ∧ Forall (fun v => (String.length (server.encryptedValue v) ≤ 50)%nat →
                     String.substring 0 50 (server.encryptedValue v)
                     = server.encryptedValue v) votes
  ∧ (Exists (fun v => (50 < String.length (server.encryptedValue v))%nat) votes →
     ∃ votes', votes' ≠ votes
               ∧ (server.session sid (with_votes sid votes' st)).2
                 = (server.session sid st).2).
Proof.
  intros Hs Hv. rewrite (session_spec st sid session votes Hs Hv).
  split; [reflexivity|]. split; [|split].
  - apply Forall_forall. intros v _ Hlen.
    rewrite substring_length_long by lia. exact Hlen.
  - apply Forall_forall. intros v _ Hlen. apply substring_short. exact Hlen.
  - intros Hex. apply Exists_exists in Hex as (v & Hin & Hlen).
    apply list_elem_of_split in Hin as (l1 & l2 & ->).
    set (v' := {| server.encryptedValue := String.app (server.encryptedValue v) "0";
                  server.timestamp := server.timestamp v |}).
    exists (l1 ++ v' :: l2). split.
    + intros Heq. apply app_inv_head in Heq. injection Heq as Heq.
      apply (f_equal server.encryptedValue) in Heq. simpl in Heq.
      apply (f_equal String.length) in Heq. rewrite app_length_string in Heq.
      simpl in Heq. lia.
    + rewrite (session_spec (with_votes sid (l1 ++ v' :: l2) st) sid session
                 (l1 ++ v' :: l2)); [|exact Hs|apply lookup_insert_eq].
      simpl. f_equal. rewrite !fmap_app, !fmap_cons. do 2 f_equal.
      unfold server.view, js.abbreviate. simpl.
      rewrite substring_app_long by lia. reflexivity.
Qed.

(** * What the tables hold *)

Lemma handle_redact (blank : paillier.PrivateKey) (rq : server.Request)
    (st : server.State) :
  (server.handle (redact blank rq) st).1 = (server.handle rq st).1.
Proof. destruct rq as [[k|e] r1 r2 now| | |]; reflexivity. Qed.

Lemma run_snoc (rqs : list server.Request) (rq : server.Request) (st : server.State) :
  server.run (rqs ++ [rq]) st = (server.handle rq (server.run rqs st)).1.
Proof. unfold server.run. rewrite foldl_app. reflexivity. Qed.

Lemma run_redact (blank : paillier.PrivateKey) (rqs : list server.Request)
    (st : server.State) :
  server.run (redact blank <$> rqs) st = server.run rqs st.
Proof.
  induction rqs as [|rq rqs IH] using rev_ind; [reflexivity|].
  rewrite fmap_app. change (redact blank <$> [rq]) with [redact blank rq].
  rewrite !run_snoc, IH. apply handle_redact.
Qed.

Lemma created_by_snoc (rqs : list server.Request) (rq : server.Request)
    (sid : string) (session : server.Session) :
  created_by rqs sid session → created_by (rqs ++ [rq]) sid session.
Proof.
  intros (k & r1 & r2 & now & Hin & H). exists k, r1, r2, now.
  split; [|exact H]. apply elem_of_app. left. exact Hin.
Qed.

Lemma sessions_created (rqs : list server.Request) :
  ∀ sid session,
    server.votingSessions (server.run rqs server.initial) !! sid = Some session →
    created_by rqs sid session.
Proof.
  induction rqs as [|rq rqs IH] using rev_ind; intros sid session.
  - simpl. rewrite lookup_empty. discriminate.
  - rewrite run_snoc. set (st := server.run rqs server.initial) in *.
    destruct rq as [[k|e] r1 r2 now|sid' [ev|] now|sid'|sid']; simpl.
    + destruct (decide (server.generateSessionId r1 r2 = sid)) as [<-|Hne].
      * rewrite lookup_insert_eq. intros [= <-].
        exists k, r1, r2, now. split; [|auto].
        apply elem_of_app. right. apply list_elem_of_singleton. reflexivity.
      * rewrite lookup_insert_ne by exact Hne.
        intros H. apply created_by_snoc, IH, H.
    + intros H. apply created_by_snoc, IH, H.
    + unfold server.submit.
      destruct (server.votingSessions st !! sid') as [s|] eqn:Hs;
        [|intros H; apply created_by_snoc, IH, H].
      destruct (server.encryptedVotes st !! sid') as [vs|] eqn:Hv;
        [|intros H; apply created_by_snoc, IH, H].
      simpl. destruct (decide (sid' = sid)) as [->|Hne].
      * rewrite lookup_insert_eq. intros [= <-]. simpl.
        apply created_by_snoc. destruct (IH sid s Hs) as (k & r1 & r2 & t & H).
        exists k, r1, r2, t. exact H.
      * rewrite lookup_insert_ne by exact Hne.
        intros H. apply created_by_snoc, IH, H.
    + unfold server.submit.
      destruct (server.votingSessions st !! sid');
        intros H; apply created_by_snoc, IH, H.
    + rewrite compute_state. intros H. apply created_by_snoc, IH, H.
    + unfold server.session.
      destruct (server.votingSessions st !! sid'); [|intros H; apply created_by_snoc, IH, H].
      destruct (server.encryptedVotes st !! sid');
        intros H; apply created_by_snoc, IH, H.
Qed.

(** C3.  For every sequence of requests, the state of the two tables that
    the sequence produces is the state that the same requests produce with
    the private half of every generated key pair replaced by anything else:
    nothing the server stores depends on [lambda] or [mu].  Every session
    record in that state was created by an init request of the sequence and
    holds the printed public half of the key pair generated for it and its
    creation time, beside its vote count. *)
Theorem store_free_of_private_keys (rqs : list server.Request) :
  let st := server.run rqs server.initial in
  (∀ blank, server.run (redact blank <$> rqs) server.initial = st)
  ∧ ∀ sid session,
      server.votingSessions st !! sid = Some session →
      created_by rqs sid session.
Proof.
  intros st. subst st. split; [intros blank; apply run_redact|].
  intros sid session Hs. exact (sessions_created rqs sid session Hs).
Qed.

(** * The client against the server *)

Lemma generateSessionId_nonempty (r1 r2 : string) :
  server.generateSessionId r1 r2 ≠ EmptyString.
Proof. discriminate. Qed.

Lemma initializeSession_spec (keys : paillier.KeyPair) (r1 r2 : string) (now : Date)
    (srv : server.State) :
  ∃ srv' this,
    client.initializeSession client.new (Ok keys) r1 r2 now srv
    = (srv', this, Ok (server.generateSessionId r1 r2))
    ∧ holds_keys this (server.generateSessionId r1 r2) keys
    ∧ session_for srv' (server.generateSessionId r1 r2) (paillier.publicKey keys) [].
Proof.
  destruct keys as [[n g] [l m]].
  unfold client.initializeSession, server.init, server.publicKeyJSON,
    server.privateKeyJSON. simpl.
  rewrite !BigInt_toString. simpl.
  eexists _, _. split; [reflexivity|]. split.
  - repeat split. apply generateSessionId_nonempty.
  - split; [|apply lookup_insert_eq].
    eexists. split; [apply lookup_insert_eq|reflexivity].
Qed.

Lemma castVote_spec (this : client.SecureVotingClient) (sid : string)
    (keys : paillier.KeyPair) (srv : server.State) (session : server.Session)
    (votes : list server.Vote) (b : Ballot) :
  holds_keys this sid keys →
  server.votingSessions srv !! sid = Some session →
  server.encryptedVotes srv !! sid = Some votes →
  vote b = 0 ∨ vote b = 1 →
  client.castVote this (vote b) (randomness b) (cast_at b) srv
  = (add_vote sid (server.encryptedValue (stored (paillier.publicKey keys) b))
       (cast_at b) session votes srv,
     Ok {| client.voteCount := S (server.voteCount session);
           client.encryptedVote :=
             js.abbreviate (server.encryptedValue (stored (paillier.publicKey keys) b)) |}).
Proof.
  intros (Hsid & Hne & Hpub & _) Hs Hv Hvote. unfold client.castVote.
  rewrite (no_session_some this sid Hsid Hne), Hpub, Hsid.
  assert (Hguard : negb (vote b =? 0) && negb (vote b =? 1) = false).
  { destruct Hvote as [-> | ->]; reflexivity. }
  rewrite Hguard. simpl stored.
  rewrite (submit_spec srv sid _ (cast_at b) session votes Hs Hv). reflexivity.
Qed.

Lemma castVotes_spec (this : client.SecureVotingClient) (sid : string)
    (keys : paillier.KeyPair) (ballots : list Ballot) :
  holds_keys this sid keys →
  Forall (valid_ballot (paillier.publicKey keys)) ballots →
  ∀ srv votes,
    session_for srv sid (paillier.publicKey keys) votes →
    ∃ srv', castVotes this ballots srv = (srv', Ok ())
            ∧ session_for srv' sid (paillier.publicKey keys)
                (votes ++ (stored (paillier.publicKey keys) <$> ballots)).
Proof.
  intros Hkeys Hvalid. induction Hvalid as [|b ballots Hb _ IH]; intros srv votes Hsess.
  - exists srv. rewrite app_nil_r. split; [reflexivity|exact Hsess].
  - destruct Hsess as [(session & Hs & Hpk) Hv].
    destruct Hb as (Hvote & _).
    simpl castVotes.
    rewrite (castVote_spec this sid keys srv session votes b Hkeys Hs Hv Hvote).
    destruct (IH (add_vote sid
                    (server.encryptedValue (stored (paillier.publicKey keys) b))
                    (cast_at b) session votes srv)
                 (votes ++ [stored (paillier.publicKey keys) b]))
      as (srv' & Hrun & Hsess').
    + split; [|apply add_vote_votes].
      eexists. split; [apply add_vote_session|exact Hpk].
    + exists srv'. split; [exact Hrun|].
      rewrite fmap_cons, cons_middle, app_assoc. exact Hsess'.
Qed.

(** * Tally and decryption *)

Section Tally.

Variable keys : paillier.KeyPair.
Hypothesis valid : valid_keys keys.

Local Abbreviation pub := (paillier.publicKey keys).
Local Abbreviation priv := (paillier.privateKey keys).

Lemma keys_facts : key_facts pub priv.
Proof. apply valid_keys_facts, valid. Qed.

Lemma stored_holds (b : Ballot) :
  valid_ballot pub b → holds_plaintext pub (stored pub b) (vote b).
Proof.
  intros (Hvote & Hr & Hco). eexists. split; [apply BigInt_toString|]. split.
  - apply encrypt_encodes; [lia|exact Hco].
  - apply (encrypt_range pub priv keys_facts).
Qed.

Lemma sum_loop_encodes (votes : list server.Vote) (Ms : list Z) :
  Forall2 (holds_plaintext pub) votes Ms →
  ∀ acc A, encodes pub A acc → 0 ≤ acc < paillier._n2 pub →
    ∃ agg, server.sum_loop pub acc votes = Ok agg
           ∧ encodes pub (A + total Ms) agg ∧ 0 ≤ agg < paillier._n2 pub.
Proof.
  induction 1 as [|v M votes Ms (c & Hv & Hc & Hrange) _ IH]; intros acc A Hacc Hr.
  - exists acc. simpl. rewrite Z.add_0_r. auto.
  - simpl server.sum_loop. rewrite Hv. simpl.
    destruct (IH (paillier.addition pub acc c) (A + M)) as (agg & Hrun & Henc & Hagg).
    + apply (addition_encodes pub priv keys_facts); assumption.
    + apply (addition_range pub priv keys_facts).
    + exists agg. split; [exact Hrun|]. split; [|exact Hagg].
      replace (A + (M + total Ms)) with (A + M + total Ms) by ring. exact Henc.
Qed.

Lemma homomorphic_sum_encodes (session : server.Session)
    (votes : list server.Vote) (Ms : list Z) :
  server.publicKey session = server.publicKeyJSON pub →
  Forall2 (holds_plaintext pub) votes Ms → votes ≠ [] →
  ∃ agg, server.homomorphic_sum session votes = Ok agg
         ∧ encodes pub (total Ms) agg ∧ 0 ≤ agg < paillier._n2 pub.
Proof.
  intros Hpk Hvotes Hne. unfold server.homomorphic_sum.
  rewrite Hpk. simpl. rewrite !BigInt_toString. simpl.
  destruct Hvotes as [|v M votes Ms (c & Hv & Hc & Hrange) Hrest]; [contradiction|].
  rewrite Hv. simpl.
  replace {| paillier.n := paillier.n pub; paillier.g := paillier.g pub |} with pub
    by (destruct pub; reflexivity).
  apply (sum_loop_encodes votes Ms Hrest c M Hc Hrange).
Qed.

Lemma decryptResults_encodes (this : client.SecureVotingClient) (sid : string)
    (M agg : Z) :
  holds_keys this sid keys →
  encodes pub M agg → 0 ≤ agg < paillier._n2 pub →
  client.decryptResults this (js.toString agg)
  = Ok (js.Number (M mod paillier.n pub)).
Proof.
  intros (_ & _ & _ & Hpriv) Henc Hrange. unfold client.decryptResults.
  rewrite Hpriv, BigInt_toString. simpl.
  rewrite (decrypt_encodes pub priv keys_facts M agg Henc Hrange).
  reflexivity.
Qed.

(** Tallying and decrypting a session of well-formed ciphertexts. *)
Lemma tally_spec (this : client.SecureVotingClient) (sid : string)
    (srv : server.State) (votes : list server.Vote) (Ms : list Z) :
  holds_keys this sid keys →
  session_for srv sid pub votes →
  Forall2 (holds_plaintext pub) votes Ms → votes ≠ [] →
  ∃ er, client.computeResults this srv
        = (srv, Ok {| client.encryptedResult := er;
                      client.computedCount := length votes |})
        ∧ client.decryptResults this er
          = Ok (js.Number (total Ms mod paillier.n pub)).
Proof.
  intros Hkeys [(session & Hs & Hpk) Hv] Hvotes Hne.
  destruct (homomorphic_sum_encodes session votes Ms Hpk Hvotes Hne)
    as (agg & Hsum & Henc & Hrange).
  exists (js.toString agg). split.
  - destruct Hkeys as (Hsid & Hnz & _). unfold client.computeResults.
    rewrite (no_session_some this sid Hsid Hnz), Hsid.
    rewrite (compute_spec srv sid session votes Hs Hv), Hsum.
    destruct votes; [contradiction|reflexivity].
  - apply (decryptResults_encodes this sid); assumption.
Qed.

End Tally.

Lemma total_bits (l : list Z) :
  Forall (fun m => m = 0 ∨ m = 1) l → 0 ≤ total l ≤ Z.of_nat (length l).
Proof.
  induction 1 as [|m l Hm _ IH]; simpl; [lia|]. fold (total l). lia.
Qed.

Lemma number_small (z : Z) : 0 ≤ z ≤ 1 → js.Number z = js.Integer z.
Proof.
  intros Hz. unfold js.Number.
  destruct (Z.leb_spec (Z.abs z) (2 ^ 53)) as [_|Hbig]; [reflexivity|].
  assert (2 ^ 53 = 9007199254740992) by reflexivity. lia.
Qed.

(** C2.  With a key pair produced by key generation, a vote of 0 or 1 that
    [castVote] encrypts and submits is stored by the server as a string which
    [decryptResults] turns back into exactly that vote; at the level of the
    cryptosystem, decrypting the encryption of the vote returns the vote. *)
Theorem castVote_decrypts_to_vote (keys : paillier.KeyPair)
    (this : client.SecureVotingClient) (sid : string) (srv : server.State)
    (votes : list server.Vote) (b : Ballot) :
  valid_keys keys →
  holds_keys this sid keys →
  session_for srv sid (paillier.publicKey keys) votes →
  valid_ballot (paillier.publicKey keys) b →
  paillier.decrypt (paillier.privateKey keys) (paillier.publicKey keys)
    (paillier.encrypt (paillier.publicKey keys) (vote b) (randomness b))
  = Ok (vote b)
  ∧ ∃ srv' res c,
      client.castVote this (vote b) (randomness b) (cast_at b) srv = (srv', Ok res)
      ∧ server.encryptedVotes srv' !! sid
        = Some (votes ++ [{| server.encryptedValue := c;
                             server.timestamp := cast_at b |}])
      ∧ client.decryptResults this c = Ok (js.Integer (vote b)).
Proof.
  intros Hvalid Hkeys [(session & Hs & Hpk) Hv] Hb.
  pose proof (keys_facts keys Hvalid) as Hfacts.
  pose proof (modulus_big _ _ Hfacts) as Hn.
  destruct (stored_holds keys Hvalid b Hb) as (c & Hc & Henc & Hrange).
  simpl in Hc. rewrite BigInt_toString in Hc. injection Hc as <-.
  assert (Hsmall : vote b mod paillier.n (paillier.publicKey keys) = vote b).
  { destruct Hb as (Hvote & _). apply Z.mod_small. lia. }
  split.
  - rewrite (decrypt_encodes _ _ Hfacts (vote b) _ Henc Hrange), Hsmall. reflexivity.
  - destruct Hb as (Hvote & Hr).
    eexists _, _, _. split; [|split].
    + apply (castVote_spec this sid keys srv session votes b Hkeys Hs Hv Hvote).
    + apply add_vote_votes.
    + simpl. rewrite (decryptResults_encodes keys Hvalid this sid (vote b) _ Hkeys Henc Hrange).
      rewrite Hsmall, number_small by lia. reflexivity.
Qed.

Lemma generated_keys_modulus (bits : Z) (keys : paillier.KeyPair) :
  generated_keys bits keys → 33 ≤ bits →
  2 ^ 32 ≤ paillier.n (paillier.publicKey keys).
Proof.
  intros [Hvalid Hbits] Hbig.
  pose proof (modulus_big _ _ (valid_keys_facts keys Hvalid)) as Hn.
  unfold bit_length in Hbits.
  destruct (Z.log2_spec (paillier.n (paillier.publicKey keys)) ltac:(lia)) as [Hlow _].
  eapply Z.le_trans; [|exact Hlow].
  apply Z.pow_le_mono_r; lia.
Qed.

(** C1.  A client opens a session, for which the init route generates a
    2048-bit key pair, and casts a non-empty sequence of votes, each 0 or 1
    (an array holds fewer than [2^32] of them).  All casts succeed, the
    compute route returns an aggregate for exactly these ballots, and
    [decryptResults] turns it into the sum of the votes, exactly. *)
Theorem tally_decrypts_to_sum (keys : paillier.KeyPair) (random1 random2 : string)
    (now : Date) (srv0 : server.State) (ballots : list Ballot) :
  generated_keys 2048 keys →
  ballots ≠ [] →
  Z.of_nat (length ballots) < 2 ^ 32 →
  Forall (valid_ballot (paillier.publicKey keys)) ballots →
  let opened := client.initializeSession client.new (Ok keys) random1 random2 now srv0 in
  let this := opened.1.2 in
  let cast := castVotes this ballots opened.1.1 in
  cast.2 = Ok ()
  ∧ ∃ er,
      client.computeResults this cast.1
      = (cast.1, Ok {| client.encryptedResult := er;
                       client.computedCount := length ballots |})
      ∧ client.decryptResults this er = Ok (js.Integer (total (vote <$> ballots))).
Proof.
  intros Hgen Hne Hfew Hballots opened this cast.
  pose proof (generated_keys_modulus 2048 keys Hgen ltac:(lia)) as Hn.
  destruct Hgen as [Hvalid _].
  destruct (initializeSession_spec keys random1 random2 now srv0)
    as (srv1 & this' & Hinit & Hkeys & Hsess).
  subst cast this opened. rewrite Hinit. simpl.
  destruct (castVotes_spec this' _ keys ballots Hkeys Hballots srv1 [] Hsess)
    as (srv2 & Hcast & Hsess2).
  rewrite Hcast. simpl. split; [reflexivity|]. rewrite app_nil_l in Hsess2.
  destruct (tally_spec keys Hvalid this' _ srv2
              (stored (paillier.publicKey keys) <$> ballots) (vote <$> ballots)
              Hkeys Hsess2) as (er & Hcompute & Hdecrypt).
  - apply Forall2_fmap, Forall_Forall2_diag.
    eapply Forall_impl; [exact Hballots|]. apply stored_holds. exact Hvalid.
  - destruct ballots; [contradiction|discriminate].
  - exists er. rewrite length_fmap in Hcompute.
    split; [exact Hcompute|]. rewrite Hdecrypt.
    assert (Hbits : Forall (fun m => m = 0 ∨ m = 1) (vote <$> ballots)).
    { apply Forall_fmap. eapply Forall_impl; [exact Hballots|].
      intros b (Hb & _). exact Hb. }
    pose proof (total_bits _ Hbits) as Hb. rewrite length_fmap in Hb.
    assert (H32 : 2 ^ 32 = 4294967296) by reflexivity.
    assert (H53 : 2 ^ 53 = 9007199254740992) by reflexivity.
    rewrite Z.mod_small by lia.
    unfold js.Number.
    destruct (Z.leb_spec (Z.abs (total (vote <$> ballots))) (2 ^ 53)) as [_|Hbig];
      [reflexivity|lia].
Qed.

(** * Corrupted ciphertexts *)

Lemma stored_readable (pub : paillier.PublicKey) (b : Ballot) : readable (stored pub b).
Proof. eexists. apply BigInt_toString. Qed.

Lemma sum_loop_unreadable (pub : paillier.PublicKey) (l1 l2 : list server.Vote)
    (bad : server.Vote) :
  Forall readable l1 →
  js.BigInt (server.encryptedValue bad) = Throw SyntaxError →
  ∀ acc, server.sum_loop pub acc (l1 ++ bad :: l2) = Throw SyntaxError.
Proof.
  intros Hl1 Hbad. induction Hl1 as [|v l1 Hv _ IH]; intros acc; simpl.
  - rewrite Hbad. reflexivity.
  - rewrite (readable_ciphertext v Hv). simpl. apply IH.
Qed.

Lemma homomorphic_sum_unreadable (session : server.Session) (l1 l2 : list server.Vote)
    (bad : server.Vote) (n g : Z) :
  js.BigInt (server.n (server.publicKey session)) = Ok n →
  js.BigInt (server.g (server.publicKey session)) = Ok g →
  Forall readable l1 →
  js.BigInt (server.encryptedValue bad) = Throw SyntaxError →
  server.homomorphic_sum session (l1 ++ bad :: l2) = Throw SyntaxError.
Proof.
  intros Hn Hg Hl1 Hbad. unfold server.homomorphic_sum. rewrite Hn, Hg. simpl.
  destruct Hl1 as [|v l1 Hv Hl1]; simpl.
  - rewrite Hbad. reflexivity.
  - rewrite (readable_ciphertext v Hv). simpl.
    apply sum_loop_unreadable; assumption.
Qed.

(** C8, as the code has it.  Let one stored ciphertext of a session of
    honest ballots be replaced by another string.  If the string is no
    integer literal, the compute route fails with status 500.  Otherwise the
    tally is computed without complaint, whatever the value.  If the value is
    itself an encryption, of a plaintext [m'], nothing fails anywhere and
    [decryptResults] returns [Number] of the sum with [m'] in place of the
    original vote, reduced modulo [n]: that integer itself when it is at most
    [2^53], and its rounding to a double otherwise. *)
Theorem corrupted_ciphertext (keys : paillier.KeyPair)
    (this : client.SecureVotingClient) (sid : string) (srv : server.State)
    (ballots : list Ballot) (i : nat) (replacement : string) (when : Date) :
  valid_keys keys →
  holds_keys this sid keys →
  Forall (valid_ballot (paillier.publicKey keys)) ballots →
  (i < length ballots)%nat →
  session_for srv sid (paillier.publicKey keys)
    (<[i := {| server.encryptedValue := replacement; server.timestamp := when |}]>
       (stored (paillier.publicKey keys) <$> ballots)) →
  (js.BigInt replacement = Throw SyntaxError →
   (server.compute sid srv).2 = server.Caught SyntaxError
   ∧ client.computeResults this srv
     = (srv, Throw (Error "Failed to compute results")))
  ∧ (∀ c, js.BigInt replacement = Ok c →
     ∃ er,
       client.computeResults this srv
       = (srv, Ok {| client.encryptedResult := er;
                     client.computedCount := length ballots |})
       ∧ ∀ m' r', 0 ≤ m' → Z.coprime r' (paillier.n (paillier.publicKey keys)) →
           c = paillier.encrypt (paillier.publicKey keys) m' r' →
           let wrong := total (<[i := m']> (vote <$> ballots))
                        mod paillier.n (paillier.publicKey keys) in
           (wrong ≤ 2 ^ 53 → client.decryptResults this er = Ok (js.Integer wrong))
           ∧ (2 ^ 53 < wrong → client.decryptResults this er = Ok (js.Rounded wrong))).
Proof.
  intros Hvalid Hkeys Hballots Hi Hsess.
  pose proof (keys_facts keys Hvalid) as Hfacts.
  pose proof (modulus_big _ _ Hfacts) as Hn.
  set (pub := paillier.publicKey keys) in *.
  set (bad := {| server.encryptedValue := replacement; server.timestamp := when |}) in *.
  set (honest := stored pub <$> ballots) in *.
  assert (Hhonest : Forall readable honest).
  { apply Forall_fmap, Forall_forall. intros b _. apply stored_readable. }
  assert (Hlen : length (<[i := bad]> honest) = length ballots).
  { unfold honest. rewrite length_insert, length_fmap. reflexivity. }
  assert (Hne : <[i := bad]> honest ≠ []).
  { intros H. rewrite H in Hlen. simpl in Hlen. lia. }
  destruct Hsess as [(session & Hs & Hpk) Hv].
  assert (Hkn : js.BigInt (server.n (server.publicKey session)) = Ok (paillier.n pub)).
  { rewrite Hpk. apply BigInt_toString. }
  assert (Hkg : js.BigInt (server.g (server.publicKey session)) = Ok (paillier.g pub)).
  { rewrite Hpk. apply BigInt_toString. }
  destruct Hkeys as (Hsid & Hnz & Hpubkey & Hpriv).
  split.
  - intros Hbad.
    assert (Hsum : server.homomorphic_sum session (<[i := bad]> honest) = Throw SyntaxError).
    { rewrite insert_take_drop by (unfold honest; rewrite length_fmap; exact Hi).
      apply (homomorphic_sum_unreadable session _ _ bad _ _ Hkn Hkg);
        [apply Forall_take; exact Hhonest|exact Hbad]. }
    assert (Hresp : (server.compute sid srv).2 = server.Caught SyntaxError).
    { rewrite (compute_spec srv sid session _ Hs Hv), Hsum.
      destruct (<[i := bad]> honest); [contradiction|reflexivity]. }
    split; [exact Hresp|].
    unfold client.computeResults. rewrite (no_session_some this sid Hsid Hnz), Hsid.
    pose proof (compute_state sid srv) as Hst.
    destruct (server.compute sid srv) as [srv' resp]. simpl in Hst, Hresp.
    subst srv' resp. reflexivity.
  - intros c Hc.
    assert (Hbadv : ciphertext bad = c).
    { unfold ciphertext, bad. simpl. rewrite Hc. reflexivity. }
    assert (Hread : Forall readable (<[i := bad]> honest)).
    { apply Forall_insert; [exact Hhonest|]. exists c. exact Hc. }
    pose proof (homomorphic_sum_spec session _ _ _ Hkn Hkg Hread Hne) as Hsum.
    destruct (server.homomorphic_sum session (<[i := bad]> honest)) as [agg|] eqn:Hagg;
      [|discriminate].
    injection Hsum as Hsum.
    exists (js.toString agg). split.
    + unfold client.computeResults.
      rewrite (no_session_some this sid Hsid Hnz), Hsid.
      rewrite (compute_spec srv sid session _ Hs Hv), Hagg, Hlen.
      destruct (<[i := bad]> honest); [contradiction|reflexivity].
    + intros m' r' Hm' Hr' Henc wrong.
      assert (Hholds : Forall2 (holds_plaintext pub) (<[i := bad]> honest)
                         (<[i := m']> (vote <$> ballots))).
      { apply Forall2_insert.
        - apply Forall2_fmap, Forall_Forall2_diag.
          eapply Forall_impl; [exact Hballots|]. apply stored_holds. exact Hvalid.
        - exists c. split; [exact Hc|]. rewrite Henc. split.
          + apply encrypt_encodes; assumption.
          + apply (encrypt_range pub _ Hfacts). }
      destruct (homomorphic_sum_encodes keys Hvalid session _ _ Hpk Hholds Hne)
        as (agg' & Hagg' & Hencodes & Hrange).
      rewrite Hagg in Hagg'. injection Hagg' as <-.
      assert (Hdecrypt : client.decryptResults this (js.toString agg)
                         = Ok (js.Number wrong)).
      { apply (decryptResults_encodes keys Hvalid this sid); [|assumption..].
        unfold holds_keys. auto. }
      assert (Hpos : 0 ≤ wrong).
      { apply Z.mod_pos_bound. fold pub. lia. }
      rewrite Hdecrypt. unfold js.Number. rewrite Z.abs_eq by exact Hpos.
      split; intros Hsize.
      * destruct (Z.leb_spec wrong (2 ^ 53)); [reflexivity|lia].
      * destruct (Z.leb_spec wrong (2 ^ 53)); [lia|reflexivity].
Qed.

(** * Primality certificates *)

Lemma exists_prime_divisor (m : Z) :
  1 < m → ∃ p, Z.prime p ∧ (p | m) ∧ p ≤ m.
Proof.
  intros Hm. assert (H0 : 0 ≤ m) by lia. revert Hm.
  pattern m. apply Z_lt_induction; [|exact H0].
  clear m H0. intros m IH Hm.
  destruct (prime_dec m) as [Hp|Hnp].
  - exists m. split; [apply prime_alt; exact Hp|]. split; [reflexivity|lia].
  - destruct (not_prime_divide m Hm Hnp) as (k & Hk & Hdiv).
    destruct (IH k ltac:(lia) ltac:(lia)) as (p & Hp & Hpk & Hle).
    exists p. split; [exact Hp|]. split; [|lia].
    eapply Z.divide_trans; eassumption.
Qed.

(** Pocklington's criterion with a single prime [q]: an element [b] with
    [b^q = 1] and [b - 1] a unit modulo [N] forces every prime factor of [N]
    to be 1 modulo [q], hence above [q]. *)
Lemma prime_factor_above (N q b p : Z) :
  Z.prime q → 1 < N →
  (b ^ q) mod N = 1 → Z.gcd (b - 1) N = 1 →
  Z.prime p → (p | N) → q + 1 ≤ p.
Proof.
  intros Hq HN Hb Hg Hp HpN.
  pose proof (Z.prime_ge_2 q Hq) as Hq2. pose proof (Z.prime_ge_2 p Hp) as Hp2.
  destruct (Z.le_gt_cases (q + 1) p) as [Hle|Hlt]; [exact Hle|exfalso].
  assert (Hbq : (b ^ q) mod p = 1).
  { destruct HpN as [j Hj].
    pose proof (Z.div_mod (b ^ q) N ltac:(lia)) as Hdm. rewrite Hb in Hdm.
    rewrite Hdm, Hj.
    replace (j * p * (b ^ q / (j * p)) + 1) with (1 + (j * (b ^ q / (j * p))) * p) by ring.
    rewrite Z.mod_add by lia. apply Z.mod_1_l. lia. }
  assert (Hnb : ¬ (p | b)).
  { intros [j Hj]. rewrite Hj in Hbq.
    rewrite Z.pow_mul_l in Hbq.
    assert (Hpq : p ^ q = p ^ (q - 1) * p).
    { replace q with ((q - 1) + 1) at 1 by lia.
      rewrite Z.pow_add_r by lia. rewrite Z.pow_1_r. reflexivity. }
    rewrite Hpq, Z.mul_assoc, Z.mod_mul in Hbq by lia. discriminate. }
  pose proof (fermat_little p b Hp Hnb) as Hfermat.
  assert (Hco : Z.coprime q (p - 1)).
  { apply Z.coprime_prime_small; [exact Hq|lia]. }
  destruct (Z.gcd_bezout q (p - 1) 1 Hco) as (u & v & Huv).
  set (e := u mod (p - 1) + (p - 1)).
  assert (He : 1 ≤ e).
  { pose proof (Z.mod_pos_bound u (p - 1) ltac:(lia)). unfold e. lia. }
  assert (Hw : ∃ w, 0 ≤ w ∧ e * q = 1 + w * (p - 1)).
  { pose proof (Z.div_mod u (p - 1) ltac:(lia)) as Hdm.
    exists (q - u / (p - 1) * q - v).
    assert (Heq : e * q = 1 + (q - u / (p - 1) * q - v) * (p - 1)).
    { unfold e. nia. }
    split; [nia|exact Heq]. }
  destruct Hw as (w & Hw0 & Hw).
  assert (H1 : (b ^ (e * q)) mod p = 1).
  { rewrite (Z.mul_comm e q), Z.pow_mul_r by lia.
    apply pow_cong_1; [lia|lia|exact Hbq]. }
  assert (H2 : (b ^ (e * q)) mod p = b mod p).
  { rewrite Hw, Z.pow_add_r, Z.pow_1_r by nia.
    rewrite (Z.mul_comm w (p - 1)), Z.pow_mul_r by lia.
    rewrite Z.mul_mod, (pow_cong_1 (b ^ (p - 1)) w p) by first [lia | exact Hfermat].
    rewrite Z.mul_1_r. apply Z.mod_mod. lia. }
  rewrite H1 in H2.
  assert (Hdiv : (p | b - 1)).
  { exists (b / p). pose proof (Z.div_mod b p ltac:(lia)). lia. }
  pose proof (Z.gcd_greatest _ _ _ Hdiv HpN) as Hone. rewrite Hg in Hone.
  apply Z.divide_1_r_nonneg in Hone; lia.
Qed.

Lemma pocklington (N q b : Z) :
  Z.prime q → 1 < N → N < (q + 1) * (q + 1) →
  (b ^ q) mod N = 1 → Z.gcd (b - 1) N = 1 → Z.prime N.
Proof.
  intros Hq HN Hsmall Hb Hg. split; [exact HN|].
  intros k Hk [j Hj].
  pose proof (Z.prime_ge_2 q Hq) as Hq2.
  assert (Hj1 : 1 < j) by nia.
  destruct (exists_prime_divisor k ltac:(lia)) as (p1 & Hp1 & Hd1 & Hle1).
  destruct (exists_prime_divisor j Hj1) as (p2 & Hp2 & Hd2 & Hle2).
  assert (H1 : q + 1 ≤ p1).
  { apply (prime_factor_above N q b p1 Hq HN Hb Hg Hp1).
    eapply Z.divide_trans; [exact Hd1|]. exists j. exact Hj. }
  assert (H2 : q + 1 ≤ p2).
  { apply (prime_factor_above N q b p2 Hq HN Hb Hg Hp2).
    eapply Z.divide_trans; [exact Hd2|]. exists k. lia. }
  nia.
Qed.

Lemma big_pow_pos_spec (b : bigZ) (e : positive) (m : bigZ) :
  BigZ.to_Z (big_pow_pos b e m) = (BigZ.to_Z b ^ Z.pos e) mod BigZ.to_Z m.
Proof.
  induction e as [e IH|e IH|]; simpl big_pow_pos.
  - rewrite BigZ.spec_modulo, BigZ.spec_mul, BigZ.spec_modulo, BigZ.spec_mul, IH.
    rewrite Pos2Z.inj_xI.
    replace (2 * Z.pos e + 1) with (1 + (Z.pos e + Z.pos e)) by lia.
    rewrite !Z.pow_add_r, Z.pow_1_r by lia.
    rewrite <- Zmult_mod, Zmult_mod_idemp_r. reflexivity.
  - rewrite BigZ.spec_modulo, BigZ.spec_mul, IH.
    rewrite Pos2Z.inj_xO.
    replace (2 * Z.pos e) with (Z.pos e + Z.pos e) by lia.
    rewrite Z.pow_add_r by lia. rewrite <- Zmult_mod. reflexivity.
  - rewrite BigZ.spec_modulo, Z.pow_1_r. reflexivity.
Qed.

Lemma fast_pow_spec (b : Z) (e : positive) (m : Z) :
  fast_pow b e m = (b ^ Z.pos e) mod m.
Proof. unfold fast_pow. rewrite big_pow_pos_spec, !BigZ.spec_of_Z. reflexivity. Qed.

Lemma fast_gcd_spec (a b : Z) : fast_gcd a b = Z.gcd a b.
Proof. unfold fast_gcd. rewrite BigZ.spec_gcd, !BigZ.spec_of_Z. reflexivity. Qed.

Lemma check_link_sound (q : Z) (l : Link) :
  Z.prime q → check_link q l = true → Z.prime (link_N l).
Proof.
  intros Hq Hcheck. unfold check_link in Hcheck.
  rewrite !andb_true_iff in Hcheck.
  destruct Hcheck as ((((Hq1 & HN) & Hsmall) & Hb) & Hg).
  apply Z.ltb_lt in Hq1, HN, Hsmall. apply Z.eqb_eq in Hb, Hg.
  rewrite fast_gcd_spec in Hg. rewrite fast_pow_spec in Hb.
  rewrite Z2Pos.id in Hb by lia.
  exact (pocklington _ q _ Hq HN Hsmall Hb Hg).
Qed.

Lemma check_chain_sound (chain : list Link) :
  ∀ q P, Z.prime q → check_chain q chain = Some P → Z.prime P.
Proof.
  induction chain as [|l chain IH]; intros q P Hq Hcheck; simpl in Hcheck.
  - injection Hcheck as <-. exact Hq.
  - destruct (check_link q l) eqn:Hl; [|discriminate].
    exact (IH _ P (check_link_sound q l Hq Hl) Hcheck).
Qed.

(** * A key pair of the size the server generates *)

Lemma inverse_unique (n x a b : Z) :
  0 ≤ a < n → 0 ≤ b < n → (a * x) mod n = 1 → (b * x) mod n = 1 → a = b.
Proof.
  intros Ha Hb Hax Hbx.
  assert (H1 : a mod n = (a * ((b * x) mod n)) mod n).
  { rewrite Hbx, Z.mul_1_r. reflexivity. }
  assert (H2 : b mod n = (b * ((a * x) mod n)) mod n).
  { rewrite Hax, Z.mul_1_r. reflexivity. }
  rewrite Zmult_mod_idemp_r in H1, H2.
  rewrite (Z.mod_small a n) in H1 by exact Ha.
  rewrite (Z.mod_small b n) in H2 by exact Hb.
  transitivity ((a * (b * x)) mod n); [exact H1|].
  replace (a * (b * x)) with (b * (a * x)) by ring. symmetry. exact H2.
Qed.

Lemma prime_p_1025 : Z.prime p_1025.
Proof. apply (check_chain_sound chain_p 3 p_1025 Z.prime_3). vm_compute. reflexivity. Qed.

Lemma prime_q_1024 : Z.prime q_1024.
Proof. apply (check_chain_sound chain_q 3 q_1024 Z.prime_3). vm_compute. reflexivity. Qed.

Lemma keys_2048_valid : valid_keys keys_2048.
Proof.
  exists p_1025, q_1024. split; [apply prime_p_1025|]. split; [apply prime_q_1024|].
  assert (Hne : p_1025 ≠ q_1024).
  { apply Z.eqb_neq. vm_compute. reflexivity. }
  assert (Hco : Z.coprime (p_1025 * q_1024) ((p_1025 - 1) * (q_1024 - 1))).
  { unfold Z.coprime. rewrite <- fast_gcd_spec. vm_compute. reflexivity. }
  destruct (generate_key_pair_spec p_1025 q_1024 prime_p_1025 prime_q_1024 Hne Hco)
    as (mu & Hgen & Hmu & Hinv).
  rewrite Hgen. clear Hgen.
  assert (Hn : p_1025 * q_1024 = paillier.n (paillier.publicKey keys_2048)).
  { vm_compute. reflexivity. }
  assert (Hlam : Z.lcm (p_1025 - 1) (q_1024 - 1)
                 = paillier.lambda (paillier.privateKey keys_2048)).
  { vm_compute. reflexivity. }
  assert (Hmu' : 0 ≤ paillier.mu (paillier.privateKey keys_2048)
                 < paillier.n (paillier.publicKey keys_2048)
                 ∧ (paillier.mu (paillier.privateKey keys_2048)
                    * paillier.lambda (paillier.privateKey keys_2048))
                   mod paillier.n (paillier.publicKey keys_2048) = 1).
  { split; [split|]; [apply Z.leb_le|apply Z.ltb_lt|]; vm_compute; reflexivity. }
  rewrite Hn, Hlam in *.
  destruct Hmu' as [Hrange Hinv'].
  rewrite (inverse_unique _ _ _ _ Hmu Hrange Hinv Hinv').
  reflexivity.
Qed.

Lemma keys_2048_generated : generated_keys 2048 keys_2048.
Proof. split; [apply keys_2048_valid|]. vm_compute. reflexivity. Qed.

(** * A small session, worked in full *)

Lemma prime_5 : Z.prime 5.
Proof.
  split; [lia|]. intros k Hk [j Hj].
  assert (k = 2 ∨ k = 3 ∨ k = 4) as [-> | [-> | ->]] by lia; lia.
Qed.

Lemma prime_7 : Z.prime 7.
Proof.
  split; [lia|]. intros k Hk [j Hj].
  assert (k = 2 ∨ k = 3 ∨ k = 4 ∨ k = 5 ∨ k = 6)
    as [-> | [-> | [-> | [-> | ->]]]] by lia; lia.
Qed.

Lemma example_keys_valid : valid_keys example_keys.
Proof. exists 5, 7. split; [apply prime_5|]. split; [apply prime_7|reflexivity]. Qed.

Lemma example_client_holds : holds_keys example_client example_sid example_keys.
Proof. unfold holds_keys. conjuncts; try evaluate. discriminate. Qed.

Lemma example_store_lookup :
  server.votingSessions example_store !! example_sid = Some example_session
  ∧ server.encryptedVotes example_store !! example_sid = Some example_votes.
Proof. split; evaluate. Qed.

Lemma example_ballots_valid :
  Forall (valid_ballot (paillier.publicKey example_keys)) example_ballots.
Proof. repeat constructor; simpl; lia. Qed.

Lemma example_votes_in_range : Forall (in_range 35) example_votes.
Proof.
  repeat constructor.
  - exists 648. split; [reflexivity|lia].
  - exists 1027. split; [reflexivity|lia].
Qed.

(** * The claims at the example session *)

Lemma example_ballots_valid_2048 :
  Forall (valid_ballot (paillier.publicKey keys_2048)) example_ballots.
Proof.
  repeat constructor; simpl vote; simpl randomness;
    first [ apply Z.ltb_lt; vm_compute; reflexivity
          | unfold Z.coprime; rewrite <- fast_gcd_spec; vm_compute; reflexivity ].
Qed.

Lemma tally_decrypts_to_sum_witness :
  let opened :=
    client.initializeSession client.new (Ok keys_2048)
      "0.k3x9w2p5q8a" "0.m7c1z4v6b0d" 1000 server.initial in
  let cast := castVotes opened.1.2 example_ballots opened.1.1 in
  cast.2 = Ok ()
  ∧ ∃ er,
      client.computeResults opened.1.2 cast.1
      = (cast.1, Ok {| client.encryptedResult := er; client.computedCount := 2 |})
      ∧ client.decryptResults opened.1.2 er = Ok (js.Integer 2).
Proof.
  apply (tally_decrypts_to_sum keys_2048 "0.k3x9w2p5q8a" "0.m7c1z4v6b0d" 1000
           server.initial example_ballots keys_2048_generated).
  - discriminate.
  - reflexivity.
  - exact example_ballots_valid_2048.
Defined.

Lemma castVote_decrypts_to_vote_witness :
  paillier.decrypt (paillier.privateKey example_keys) (paillier.publicKey example_keys)
    (paillier.encrypt (paillier.publicKey example_keys) 1 2) = Ok 1.
Proof.
  apply (castVote_decrypts_to_vote example_keys example_client example_sid
           example_opened.1.1 [] {| vote := 1; randomness := 2; cast_at := 1001 |}
           example_keys_valid example_client_holds).
  - split; [|evaluate].
    eexists. split; [evaluate|reflexivity].
  - repeat split; simpl; lia.
Defined.

(** C4 fails as written: after the tally of the example session has been
    computed, a further ballot is accepted and stored as the third one. *)
Lemma submit_after_compute_accepted :
  let computed := server.compute example_sid example_store in
  let later := server.submit example_sid (Some "36") 1003 computed.1 in
  computed.2 = server.ComputeResponse "321" 2
  ∧ later.2 = server.SubmitResponse 3
  ∧ server.ok later.2 = true
  ∧ server.encryptedVotes later.1 !! example_sid
    = Some (example_votes
            ++ [{| server.encryptedValue := "36"; server.timestamp := 1003 |}]).
Proof. conjuncts; evaluate. Qed.

Lemma submit_after_compute_witness :
  ∃ session votes,
    let later :=
      server.run [server.GetSession example_sid]
        (server.compute example_sid example_store).1 in
    server.votingSessions later !! example_sid = Some session
    ∧ server.encryptedVotes later !! example_sid = Some votes
    ∧ (server.submit example_sid (Some "36") 1003 later).2
      = server.SubmitResponse (S (server.voteCount session))
    ∧ server.encryptedVotes (server.submit example_sid (Some "36") 1003 later).1
        !! example_sid
      = Some (votes ++ [{| server.encryptedValue := "36"; server.timestamp := 1003 |}])
    ∧ server.votingSessions (server.submit example_sid (Some "36") 1003 later).1
        !! example_sid
      = Some {| server.publicKey := server.publicKey session;
                server.createdAt := server.createdAt session;
                server.voteCount := S (server.voteCount session) |}.
Proof.
  destruct example_store_lookup as [Hs Hv].
  apply (submit_after_compute example_store example_sid
           [server.GetSession example_sid] "36" 1003).
  - rewrite Hs. eexists. reflexivity.
  - rewrite Hv. eexists. reflexivity.
Defined.

(** C5 fails as written: the example session, whose [n^2] is 1225, accepts
    the out-of-range values 1225 and -5. *)
Lemma submit_out_of_range_accepted :
  let high := server.submit example_sid (Some "1225") 1003 example_store in
  let low := server.submit example_sid (Some "-5") 1003 example_store in
  js.BigInt "1225" = Ok 1225 ∧ ¬ (0 ≤ 1225 < 35 * 35)
  ∧ high.2 = server.SubmitResponse 3
  ∧ server.encryptedVotes high.1 !! example_sid
    = Some (example_votes
            ++ [{| server.encryptedValue := "1225"; server.timestamp := 1003 |}])
  ∧ js.BigInt "-5" = Ok (-5) ∧ ¬ (0 ≤ -5 < 35 * 35)
  ∧ low.2 = server.SubmitResponse 3
  ∧ server.encryptedVotes low.1 !! example_sid
    = Some (example_votes
            ++ [{| server.encryptedValue := "-5"; server.timestamp := 1003 |}]).
Proof. conjuncts; try lia; evaluate. Qed.

Lemma submit_without_validation_witness :
  server.votingSessions
    (server.submit example_sid (Some "1225") 1003 example_store).1 !! example_sid
  = Some {| server.publicKey := server.publicKey example_session;
            server.createdAt := server.createdAt example_session;
            server.voteCount := 3 |}
  ∧ server.submit example_sid None 1003 example_store
    = (example_store, server.Caught TypeError).
Proof.
  destruct example_store_lookup as [Hs Hv].
  destruct (submit_without_validation example_store example_sid 1003
              example_session example_votes Hs Hv) as [Hany Hnone].
  split; [apply (Hany "1225")|exact Hnone].
Defined.

(** C6 fails as written: the tally of the example session succeeds, and the
    store afterwards is the store before; the session record is unchanged
    and holds no aggregate. *)
Lemma compute_stores_nothing :
  server.compute example_sid example_store
  = (example_store, server.ComputeResponse "321" 2)
  ∧ server.votingSessions (server.compute example_sid example_store).1 !! example_sid
    = Some example_session.
Proof. split; evaluate. Qed.

Lemma compute_returns_without_storing_witness :
  (server.compute example_sid example_store).1 = example_store.
Proof.
  apply (compute_returns_without_storing example_store example_sid "321" 2).
  evaluate.
Defined.

Lemma compute_empty_session_witness :
  server.compute example_sid example_opened.1.1
  = (example_opened.1.1, server.Failure 400 "No votes to compute").
Proof.
  apply (compute_empty_session example_opened.1.1 example_sid
           {| server.publicKey := {| server.n := "35"; server.g := "36" |};
              server.createdAt := 1000; server.voteCount := 0 |});
    evaluate.
Defined.

(** C8 fails as written: with the first stored ciphertext of the example
    session changed from 648 to 649, the tally is computed, decryption
    succeeds, and the client is told 6 yes votes where 2 were cast. *)
Lemma corrupted_tally_is_silent :
  server.encryptedVotes example_store_corrupted !! example_sid
  = Some (<[0%nat := {| server.encryptedValue := "649"; server.timestamp := 1001 |}]>
            example_votes)
  ∧ client.computeResults example_client example_store_corrupted
    = (example_store_corrupted,
       Ok {| client.encryptedResult := "123"; client.computedCount := 2 |})
  ∧ client.decryptResults example_client "123" = Ok (js.Integer 6)
  ∧ total (vote <$> example_ballots) = 2.
Proof. conjuncts; evaluate. Qed.

Lemma corrupted_ciphertext_witness :
  ∃ er,
    client.computeResults example_client example_store_corrupted
    = (example_store_corrupted,
       Ok {| client.encryptedResult := er; client.computedCount := 2 |})
    ∧ client.decryptResults example_client er = Ok (js.Integer 6).
Proof.
  destruct (corrupted_ciphertext example_keys example_client example_sid
              example_store_corrupted example_ballots 0 "649" 1001
              example_keys_valid example_client_holds example_ballots_valid
              ltac:(simpl; lia))
    as (_ & Hparsed).
  - split; [|evaluate].
    exists example_session. split; evaluate.
  - destruct (Hparsed 649 eq_refl) as (er & Hcompute & Hwrong).
    exists er. split; [exact Hcompute|].
    destruct (Hwrong 5 24 ltac:(lia) ltac:(reflexivity) ltac:(reflexivity))
      as [Hexact _].
    apply Hexact. vm_compute. discriminate.
Defined.

Lemma compute_order_independent_witness :
  (server.compute example_sid example_store_swapped).2
  = (server.compute example_sid example_store).2
  ∧ (server.compute example_sid example_store).2 = server.ComputeResponse "321" 2.
Proof.
  destruct example_store_lookup as [Hs Hv].
  destruct (compute_order_independent example_store example_store_swapped example_sid
              example_session example_votes (reverse example_votes) 35 36 Hs Hv)
    as [Hsame Hproduct].
  - evaluate.
  - evaluate.
  - reflexivity.
  - reflexivity.
  - exact example_votes_in_range.
  - apply Permutation_swap.
  - split; [exact Hsame|]. apply Hproduct. discriminate.
Defined.

(** C10 fails as written: the ciphertexts of the example session are
    shorter than 50 characters, so the snapshot shows each of them whole,
    and cutting the three dots off gives back the stored sequence. *)
Lemma snapshot_shows_short_ciphertexts :
  ∃ views,
    (server.session example_sid example_store).2
    = server.SessionResponse example_sid 2 1000
        {| server.n := "35"; server.g := "36" |} views
    ∧ server.encrypted <$> views = ["648..."; "1027..."]
    ∧ (fun w => String.substring 0 (String.length (server.encrypted w) - 3)
                  (server.encrypted w)) <$> views
      = server.encryptedValue <$> example_votes.
Proof. eexists. conjuncts; evaluate. Qed.

Lemma session_snapshot_abbreviates_witness :
  (server.session example_sid example_store).1 = example_store.
Proof.
  destruct example_store_lookup as [Hs Hv].
  destruct (session_snapshot_abbreviates example_store example_sid
              example_session example_votes Hs Hv) as (Heq & _).
  rewrite Heq. reflexivity.
Defined.

Lemma store_free_of_private_keys_witness :
  server.run
    (redact {| paillier.lambda := 0; paillier.mu := 0 |}
     <$> [ server.PostInit (Ok example_keys) "0.k3x9w2p5q8a" "0.m7c1z4v6b0d" 1000;
           server.PostSubmit example_sid (Some "648") 1001;
           server.PostSubmit example_sid (Some "1027") 1002 ])
    server.initial
  = example_store.
Proof.
  destruct (store_free_of_private_keys
              [ server.PostInit (Ok example_keys) "0.k3x9w2p5q8a" "0.m7c1z4v6b0d" 1000;
                server.PostSubmit example_sid (Some "648") 1001;
                server.PostSubmit example_sid (Some "1027") 1002 ])
    as [Hblank _].
  rewrite Hblank. evaluate.
Defined.

(** * Invariants of the two tables *)

Lemma well_formed_initial : well_formed server.initial.
Proof. intros sid. simpl. rewrite !lookup_empty. exact I. Qed.

Lemma well_formed_handle (rq : server.Request) (st : server.State) :
  well_formed st → well_formed (server.handle rq st).1.
Proof.
  intros Hwf.
  destruct rq as [[k|e] r1 r2 now|sid' [ev|] now|sid'|sid']; simpl.
  - intros sid. simpl.
    destruct (decide (server.generateSessionId r1 r2 = sid)) as [<-|Hne].
    + rewrite !lookup_insert_eq. simpl. split; [reflexivity|]. split; eauto.
    + rewrite !lookup_insert_ne by exact Hne. apply Hwf.
  - exact Hwf.
  - unfold server.submit. pose proof (Hwf sid') as Hsid'.
    destruct (server.votingSessions st !! sid') as [s|] eqn:Hs; [|exact Hwf].
    destruct (server.encryptedVotes st !! sid') as [vs|] eqn:Hv; [|exact Hwf].
    destruct Hsid' as (Hcount & Hid & Hpk).
    intros sid. simpl. destruct (decide (sid' = sid)) as [<-|Hne].
    + rewrite !lookup_insert_eq. simpl. rewrite length_app. simpl.
      split; [lia|]. split; assumption.
    + rewrite !lookup_insert_ne by exact Hne. apply Hwf.
  - unfold server.submit. destruct (server.votingSessions st !! sid'); exact Hwf.
  - rewrite compute_state. exact Hwf.
  - unfold server.session.
    destruct (server.votingSessions st !! sid'); [|exact Hwf].
    destruct (server.encryptedVotes st !! sid'); exact Hwf.
Qed.

Lemma reachable_well_formed (st : server.State) : server.reachable st → well_formed st.
Proof.
  intros [rqs ->]. induction rqs as [|rq rqs IH] using rev_ind.
  - apply well_formed_initial.
  - rewrite run_snoc. apply well_formed_handle, IH.
Qed.

Lemma example_store_reachable : server.reachable example_store.
Proof.
  exists [ server.PostInit (Ok example_keys) "0.k3x9w2p5q8a" "0.m7c1z4v6b0d" 1000;
           server.PostSubmit example_sid (Some "648") 1001;
           server.PostSubmit example_sid (Some "1027") 1002 ].
  evaluate.
Qed.

(** X1.  In every reachable state the two tables have the same keys, so the
    routes never meet a session that has a record but no vote array: for an
    identifier that starts with [session_], as all generated ones do, the
    snapshot route answers 404 or a snapshot and lets no exception escape,
    and a submission that carries a string is answered 404 or accepted. *)
Theorem reachable_tables_agree (st : server.State) (sid : string) :
  server.reachable st →
  String.prefix "session_" sid = true →
  (is_Some (server.votingSessions st !! sid) ↔ is_Some (server.encryptedVotes st !! sid))
  ∧ ((server.session sid st).2 = server.Failure 404 "Session not found"
     ∨ ∃ session votes,
         (server.session sid st).2
         = server.SessionResponse sid (server.voteCount session)
             (server.createdAt session) (server.publicKey session)
             (server.view <$> votes))
  ∧ ∀ ev now,
      (server.submit sid (Some ev) now st).2 = server.Failure 404 "Session not found"
      ∨ ∃ count, (server.submit sid (Some ev) now st).2 = server.SubmitResponse count.
Proof.
  intros Hreach _. pose proof (reachable_well_formed st Hreach sid) as Hwf.
  unfold server.session, server.submit.
  destruct (server.votingSessions st !! sid) as [s|];
    destruct (server.encryptedVotes st !! sid) as [vs|]; try contradiction.
  - split; [split; eauto|]. split; [right; eauto|]. intros ev now. right. eauto.
  - split; [split; intros [? [=]]|]. split; [left; reflexivity|].
    intros ev now. left. reflexivity.
Qed.

Lemma reachable_tables_agree_witness :
  is_Some (server.votingSessions example_store !! example_sid)
  ↔ is_Some (server.encryptedVotes example_store !! example_sid).
Proof.
  apply (reachable_tables_agree example_store example_sid example_store_reachable).
  reflexivity.
Defined.

Lemma generateSessionId_length (random1 random2 : string) :
  (8 ≤ String.length (server.generateSessionId random1 random2) ≤ 34)%nat.
Proof.
  unfold server.generateSessionId. rewrite !app_length_string.
  assert (Hsub : ∀ s, (String.length (String.substring 2 13 s) ≤ 13)%nat).
  { intros s. destruct s as [|c0 [|c1 s]]; simpl; try lia.
    generalize 13%nat. revert c0 c1. induction s as [|c s IH]; intros c0 c1 k.
    - destruct k; simpl; lia.
    - destruct k as [|k]; simpl; [lia|]. specialize (IH c0 c1 k). simpl in IH. lia. }
  pose proof (Hsub random1). pose proof (Hsub random2). simpl. lia.
Qed.

(** X2.  Every session identifier in a reachable store was produced by
    [generateSessionId]: it starts with [session_] and has between 8 and 34
    characters. *)
Theorem session_ids_generated (st : server.State) (sid : string)
    (session : server.Session) :
  server.reachable st →
  server.votingSessions st !! sid = Some session →
  String.prefix "session_" sid = true
  ∧ (8 ≤ String.length sid ≤ 34)%nat.
Proof.
  intros Hreach Hs. pose proof (reachable_well_formed st Hreach sid) as Hwf.
  rewrite Hs in Hwf.
  destruct (server.encryptedVotes st !! sid); [|contradiction].
  destruct Hwf as (_ & (r1 & r2 & ->) & _).
  split; [|apply generateSessionId_length].
  unfold server.generateSessionId. simpl.
  repeat (destruct (ascii_dec _ _) as [_|Hne]; [|contradiction]).
  destruct (_ +:+ _); reflexivity.
Qed.

Lemma session_ids_generated_witness :
  String.prefix "session_" example_sid = true
  ∧ (8 ≤ String.length example_sid ≤ 34)%nat.
Proof.
  destruct example_store_lookup as [Hs _].
  apply (session_ids_generated example_store example_sid example_session
           example_store_reachable Hs).
Defined.

Lemma voteCount_matches (st : server.State) (sid : string)
    (session : server.Session) (votes : list server.Vote) :
  server.reachable st →
  server.votingSessions st !! sid = Some session →
  server.encryptedVotes st !! sid = Some votes →
  server.voteCount session = length votes.
Proof.
  intros Hreach Hs Hv. pose proof (reachable_well_formed st Hreach sid) as Hwf.
  rewrite Hs, Hv in Hwf. apply Hwf.
Qed.

(** X3.  In every reachable state the counter of a session equals the
    number of votes stored for it; the count that an accepted submission
    reports is the number of votes stored after it. *)
Theorem voteCount_counts_votes (st : server.State) (sid : string)
    (session : server.Session) (votes : list server.Vote) :
  server.reachable st →
  server.votingSessions st !! sid = Some session →
  server.encryptedVotes st !! sid = Some votes →
  server.voteCount session = length votes
  ∧ ∀ ev now,
      ∃ votes',
        server.encryptedVotes (server.submit sid (Some ev) now st).1 !! sid = Some votes'
        ∧ (server.submit sid (Some ev) now st).2 = server.SubmitResponse (length votes').
Proof.
  intros Hreach Hs Hv.
  pose proof (voteCount_matches st sid session votes Hreach Hs Hv) as Hcount.
  split; [exact Hcount|]. intros ev now.
  rewrite (submit_spec st sid ev now session votes Hs Hv).
  eexists. split; [apply add_vote_votes|].
  simpl. rewrite length_app, Hcount. simpl. f_equal. lia.
Qed.

Lemma voteCount_counts_votes_witness :
  server.voteCount example_session = length example_votes.
Proof.
  destruct example_store_lookup as [Hs Hv].
  apply (voteCount_counts_votes example_store example_sid example_session
           example_votes example_store_reachable Hs Hv).
Defined.

(** * What the routes answer *)

Lemma BigInt_outcome (s : string) :
  (∃ c, js.BigInt s = Ok c) ∨ js.BigInt s = Throw SyntaxError.
Proof. unfold js.BigInt. destruct (js.string_to_bigint s); eauto. Qed.

(** Either all votes are readable, or there is a first one that is not. *)
Lemma first_unreadable (votes : list server.Vote) :
  Forall readable votes
  ∨ ∃ l1 bad l2, votes = l1 ++ bad :: l2 ∧ Forall readable l1
                 ∧ js.BigInt (server.encryptedValue bad) = Throw SyntaxError.
Proof.
  induction votes as [|v votes IH]; [left; constructor|].
  destruct (BigInt_outcome (server.encryptedValue v)) as [Hv|Hv].
  - destruct IH as [Hall|(l1 & bad & l2 & -> & Hl1 & Hbad)].
    + left. constructor; assumption.
    + right. exists (v :: l1), bad, l2. split; [reflexivity|].
      split; [constructor; assumption|exact Hbad].
  - right. exists [], v, votes. split; [reflexivity|]. split; [constructor|exact Hv].
Qed.

(** X4.  The compute route on a session of a reachable store has exactly
    three outcomes.  Without votes it answers 400.  When every stored string
    is an integer literal it answers with an aggregate, itself a literal
    that [BigInt] reads back, and with the session's vote count.  When some
    stored string is no integer literal it answers 500 with a
    [SyntaxError].  The rebuilding of the public key never fails. *)
Theorem compute_outcomes (st : server.State) (sid : string)
    (session : server.Session) (votes : list server.Vote) :
  server.reachable st →
  server.votingSessions st !! sid = Some session →
  server.encryptedVotes st !! sid = Some votes →
  (votes = [] ∧ (server.compute sid st).2 = server.Failure 400 "No votes to compute")
  ∨ (votes ≠ [] ∧ Forall readable votes
     ∧ ∃ aggregate,
         (server.compute sid st).2
         = server.ComputeResponse (js.toString aggregate) (server.voteCount session)
         ∧ js.BigInt (js.toString aggregate) = Ok aggregate)
  ∨ (Exists (fun v => js.BigInt (server.encryptedValue v) = Throw SyntaxError) votes
     ∧ (server.compute sid st).2 = server.Caught SyntaxError).
Proof.
  intros Hreach Hs Hv. pose proof (reachable_well_formed st Hreach sid) as Hwf.
  rewrite Hs, Hv in Hwf. destruct Hwf as (Hcount & _ & pub & Hpk).
  assert (Hn : js.BigInt (server.n (server.publicKey session)) = Ok (paillier.n pub)).
  { rewrite Hpk. apply BigInt_toString. }
  assert (Hg : js.BigInt (server.g (server.publicKey session)) = Ok (paillier.g pub)).
  { rewrite Hpk. apply BigInt_toString. }
  rewrite (compute_spec st sid session votes Hs Hv).
  destruct votes as [|v votes]; [left; auto|].
  right. destruct (first_unreadable (v :: votes)) as [Hall|(l1 & bad & l2 & Heq & Hl1 & Hbad)].
  - left. split; [discriminate|]. split; [exact Hall|].
    rewrite (homomorphic_sum_spec session (v :: votes) _ _ Hn Hg Hall) by discriminate.
    eexists. rewrite Hcount. split; [reflexivity|apply BigInt_toString].
  - right. split.
    + rewrite Heq. apply Exists_app. right. constructor. exact Hbad.
    + rewrite Heq, (homomorphic_sum_unreadable session l1 l2 bad _ _ Hn Hg Hl1 Hbad).
      reflexivity.
Qed.

Lemma compute_outcomes_witness :
  (example_votes = []
   ∧ (server.compute example_sid example_store).2
     = server.Failure 400 "No votes to compute")
  ∨ (example_votes ≠ [] ∧ Forall readable example_votes
     ∧ ∃ aggregate,
         (server.compute example_sid example_store).2
         = server.ComputeResponse (js.toString aggregate)
             (server.voteCount example_session)
         ∧ js.BigInt (js.toString aggregate) = Ok aggregate)
  ∨ (Exists (fun v => js.BigInt (server.encryptedValue v) = Throw SyntaxError)
       example_votes
     ∧ (server.compute example_sid example_store).2 = server.Caught SyntaxError).
Proof.
  destruct example_store_lookup as [Hs Hv].
  apply (compute_outcomes example_store example_sid example_session example_votes
           example_store_reachable Hs Hv).
Defined.

(** X5.  The init route, when key generation succeeds, answers with the
    generated identifier and both halves of the key pair, and binds the
    identifier to a record with the public half, the current time and the
    count 0 and to an empty vote array, whatever was stored under that
    identifier before; every other session is left as it was. *)
Theorem init_opens_empty_session (keys : paillier.KeyPair) (random1 random2 : string)
    (now : Date) (st : server.State) :
  let sid := server.generateSessionId random1 random2 in
  let opened := server.init (Ok keys) random1 random2 now st in
  opened.2 = server.InitResponse sid
               (server.publicKeyJSON (paillier.publicKey keys))
               (server.privateKeyJSON (paillier.privateKey keys))
  ∧ server.votingSessions opened.1 !! sid
    = Some {| server.publicKey := server.publicKeyJSON (paillier.publicKey keys);
              server.createdAt := now;
              server.voteCount := 0 |}
  ∧ server.encryptedVotes opened.1 !! sid = Some []
  ∧ ∀ other, other ≠ sid →
      server.votingSessions opened.1 !! other = server.votingSessions st !! other
      ∧ server.encryptedVotes opened.1 !! other = server.encryptedVotes st !! other.
Proof.
  intros sid opened. subst opened sid. simpl.
  split; [reflexivity|]. split; [apply lookup_insert_eq|].
  split; [apply lookup_insert_eq|].
  intros other Hne. split; apply lookup_insert_ne; congruence.
Qed.

Lemma init_opens_empty_session_witness :
  server.encryptedVotes
    (server.init (Ok example_keys) "0.k3x9w2p5q8a" "0.m7c1z4v6b0d" 2000 example_store).1
    !! example_sid = Some []
  ∧ server.encryptedVotes example_store !! example_sid = Some example_votes.
Proof.
  split.
  - apply (init_opens_empty_session example_keys "0.k3x9w2p5q8a" "0.m7c1z4v6b0d"
             2000 example_store).
  - apply example_store_lookup.
Defined.

(** X6.  An accepted submission changes one session only: the other
    sessions keep their records and votes, and the session itself keeps its
    public key and creation time while its count grows by one. *)
Theorem submit_changes_one_session (st : server.State) (sid ev : string) (now : Date)
    (session : server.Session) (votes : list server.Vote) :
  server.votingSessions st !! sid = Some session →
  server.encryptedVotes st !! sid = Some votes →
  let st' := (server.submit sid (Some ev) now st).1 in
  server.votingSessions st' !! sid
  = Some {| server.publicKey := server.publicKey session;
            server.createdAt := server.createdAt session;
            server.voteCount := S (server.voteCount session) |}
  ∧ ∀ other, other ≠ sid →
      server.votingSessions st' !! other = server.votingSessions st !! other
      ∧ server.encryptedVotes st' !! other = server.encryptedVotes st !! other.
Proof.
  intros Hs Hv st'. subst st'.
  rewrite (submit_spec st sid ev now session votes Hs Hv). simpl.
  split; [apply lookup_insert_eq|].
  intros other Hne. split; apply lookup_insert_ne; congruence.
Qed.

Lemma submit_changes_one_session_witness :
  server.votingSessions (server.submit example_sid (Some "36") 1003 example_store).1
    !! example_sid
  = Some {| server.publicKey := server.publicKey example_session;
            server.createdAt := 1000;
            server.voteCount := 3 |}.
Proof.
  destruct example_store_lookup as [Hs Hv].
  apply (submit_changes_one_session example_store example_sid "36" 1003
           example_session example_votes Hs Hv).
Defined.

(** X7.  A session identifier that starts with [session_], as all
    generated ones do, and has no record is answered 404 by the submit,
    compute and snapshot routes, which change nothing; a client that holds
    this identifier then gets the exceptions [Failed to submit vote] and
    [Failed to compute results]. *)
Theorem unknown_session_not_found (st : server.State) (sid : string) :
  String.prefix "session_" sid = true →
  server.votingSessions st !! sid = None →
  (∀ ev now, server.submit sid ev now st
             = (st, server.Failure 404 "Session not found"))
  ∧ server.compute sid st = (st, server.Failure 404 "Session not found")
  ∧ server.session sid st = (st, server.Failure 404 "Session not found")
  ∧ ∀ this pubKey,
      client.sessionId this = Some sid → sid ≠ EmptyString →
      client.paillierPublicKey this = Some pubKey →
      (∀ vote r now, vote = 0 ∨ vote = 1 →
         client.castVote this vote r now st
         = (st, Throw (Error "Failed to submit vote")))
      ∧ client.computeResults this st
        = (st, Throw (Error "Failed to compute results")).
Proof.
  intros _ Hs.
  assert (Hsubmit : ∀ ev now, server.submit sid ev now st
                              = (st, server.Failure 404 "Session not found")).
  { intros ev now. unfold server.submit. rewrite Hs. reflexivity. }
  assert (Hcompute : server.compute sid st
                     = (st, server.Failure 404 "Session not found")).
  { unfold server.compute. rewrite Hs. reflexivity. }
  split; [exact Hsubmit|]. split; [exact Hcompute|]. split.
  - unfold server.session. rewrite Hs. reflexivity.
  - intros this pubKey Hsid Hne Hpub. split.
    + intros vote r now Hvote. unfold client.castVote.
      rewrite (no_session_some this sid Hsid Hne), Hpub, Hsid.
      assert (Hguard : negb (vote =? 0) && negb (vote =? 1) = false).
      { destruct Hvote as [-> | ->]; reflexivity. }
      rewrite Hguard, Hsubmit. reflexivity.
    + unfold client.computeResults.
      rewrite (no_session_some this sid Hsid Hne), Hsid, Hcompute. reflexivity.
Qed.

Lemma unknown_session_not_found_witness :
  server.compute "session_unknown" example_store
  = (example_store, server.Failure 404 "Session not found").
Proof.
  apply (unknown_session_not_found example_store "session_unknown");
    [reflexivity|evaluate].
Defined.

(** * How the store evolves *)

Lemma handle_extends_votes (rq : server.Request) (st : server.State) (sid : string)
    (votes : list server.Vote) :
  keeps_identifier sid rq →
  server.encryptedVotes st !! sid = Some votes →
  ∃ more, server.encryptedVotes (server.handle rq st).1 !! sid = Some (votes ++ more)
          ∧ (length more ≤ 1)%nat.
Proof.
  intros Hkeep Hv.
  assert (Hsame : ∃ more, server.encryptedVotes st !! sid = Some (votes ++ more)
                          ∧ (length more ≤ 1)%nat).
  { exists []. rewrite app_nil_r. split; [exact Hv|simpl; lia]. }
  destruct rq as [[k|e] r1 r2 now|sid' [ev|] now|sid'|sid']; simpl.
  - simpl in Hkeep. rewrite lookup_insert_ne by exact Hkeep. exact Hsame.
  - exact Hsame.
  - unfold server.submit.
    destruct (server.votingSessions st !! sid'); [|exact Hsame].
    destruct (server.encryptedVotes st !! sid') as [vs|] eqn:Hv'; [|exact Hsame].
    simpl. destruct (decide (sid' = sid)) as [->|Hne].
    + rewrite lookup_insert_eq. rewrite Hv in Hv'. injection Hv' as <-.
      eexists. split; [reflexivity|simpl; lia].
    + rewrite lookup_insert_ne by exact Hne. exact Hsame.
  - unfold server.submit. destruct (server.votingSessions st !! sid'); exact Hsame.
  - rewrite compute_state. exact Hsame.
  - unfold server.session.
    destruct (server.votingSessions st !! sid'); [|exact Hsame].
    destruct (server.encryptedVotes st !! sid'); exact Hsame.
Qed.

(** X8.  Stored votes are never removed, reordered or rewritten: as long as
    no session is opened anew under the same identifier, the votes a session
    held before a sequence of requests are a prefix of the votes it holds
    after it, and the sequence has added at most one vote per request. *)
Theorem votes_only_grow (rqs : list server.Request) (st : server.State)
    (sid : string) (votes : list server.Vote) :
  Forall (keeps_identifier sid) rqs →
  server.encryptedVotes st !! sid = Some votes →
  ∃ more, server.encryptedVotes (server.run rqs st) !! sid = Some (votes ++ more)
          ∧ (length more ≤ length rqs)%nat.
Proof.
  intros Hkeep. revert st votes.
  induction Hkeep as [|rq rqs Hrq _ IH]; intros st votes Hv.
  - exists []. rewrite app_nil_r. split; [exact Hv|simpl; lia].
  - destruct (handle_extends_votes rq st sid votes Hrq Hv) as (m1 & Hv1 & Hlen1).
    destruct (IH _ _ Hv1) as (m2 & Hv2 & Hlen2).
    exists (m1 ++ m2). rewrite app_assoc. split; [exact Hv2|].
    rewrite length_app. simpl. lia.
Qed.

Lemma votes_only_grow_witness :
  ∃ more,
    server.encryptedVotes
      (server.run [server.PostCompute example_sid;
                   server.PostSubmit example_sid (Some "36") 1003] example_store)
      !! example_sid = Some (example_votes ++ more)
    ∧ (length more ≤ 2)%nat.
Proof.
  apply (votes_only_grow [server.PostCompute example_sid;
                          server.PostSubmit example_sid (Some "36") 1003]
           example_store example_sid example_votes).
  - repeat constructor.
  - apply example_store_lookup.
Defined.

Lemma run_cons (rq : server.Request) (rqs : list server.Request) (st : server.State) :
  server.run (rq :: rqs) st = server.run rqs (server.handle rq st).1.
Proof. reflexivity. Qed.

(** X9.  Submissions to a session are stored in their order of receipt:
    after a run of submissions the session holds its former votes followed
    by the submitted strings with their times, in the order submitted, and
    its count has grown by their number. *)
Theorem submissions_append_in_order (evs : list (string * Date)) (st : server.State)
    (sid : string) (session : server.Session) (votes : list server.Vote) :
  server.votingSessions st !! sid = Some session →
  server.encryptedVotes st !! sid = Some votes →
  server.encryptedVotes (server.run (submissions sid evs) st) !! sid
  = Some (votes ++ ((fun ev => {| server.encryptedValue := ev.1;
                                  server.timestamp := ev.2 |}) <$> evs))
  ∧ server.votingSessions (server.run (submissions sid evs) st) !! sid
    = Some {| server.publicKey := server.publicKey session;
              server.createdAt := server.createdAt session;
              server.voteCount := (server.voteCount session + length evs)%nat |}.
Proof.
  revert st session votes.
  induction evs as [|[ev t] evs IH]; intros st session votes Hs Hv.
  - simpl. rewrite app_nil_r, Nat.add_0_r. split; [exact Hv|].
    rewrite Hs. destruct session; reflexivity.
  - change (submissions sid ((ev, t) :: evs))
      with (server.PostSubmit sid (Some ev) t :: submissions sid evs).
    rewrite run_cons. simpl server.handle.
    rewrite (submit_spec st sid ev t session votes Hs Hv). simpl fst.
    destruct (IH (add_vote sid ev t session votes st) _ _
                (add_vote_session st sid ev t session votes)
                (add_vote_votes st sid ev t session votes)) as [Hv' Hs'].
    split.
    + rewrite Hv', fmap_cons, <- app_assoc. reflexivity.
    + rewrite Hs'. simpl. do 2 f_equal. lia.
Qed.

Lemma submissions_append_in_order_witness :
  server.encryptedVotes
    (server.run (submissions example_sid [("36", 1003); ("71", 1004)]) example_store)
    !! example_sid
  = Some (example_votes
          ++ [ {| server.encryptedValue := "36"; server.timestamp := 1003 |};
               {| server.encryptedValue := "71"; server.timestamp := 1004 |} ]).
Proof.
  destruct example_store_lookup as [Hs Hv].
  apply (submissions_append_in_order [("36", 1003); ("71", 1004)] example_store
           example_sid example_session example_votes Hs Hv).
Defined.

(** X10.  With exactly one stored vote the loop of the compute route does
    not run: the answer is the integer that the stored string denotes,
    printed in decimal, whatever its size or sign; it is not reduced modulo
    [n^2]. *)
Theorem single_vote_tally (st : server.State) (sid : string)
    (session : server.Session) (v : server.Vote) (n g c : Z) :
  server.votingSessions st !! sid = Some session →
  server.encryptedVotes st !! sid = Some [v] →
  js.BigInt (server.n (server.publicKey session)) = Ok n →
  js.BigInt (server.g (server.publicKey session)) = Ok g →
  js.BigInt (server.encryptedValue v) = Ok c →
  server.compute sid st = (st, server.ComputeResponse (js.toString c) 1).
Proof.
  intros Hs Hv Hn Hg Hc. rewrite (compute_spec st sid session [v] Hs Hv).
  unfold server.homomorphic_sum. rewrite Hn, Hg. simpl. rewrite Hc. reflexivity.
Qed.

Lemma single_vote_tally_witness :
  server.compute example_sid
    (with_votes example_sid
       [{| server.encryptedValue := "5000"; server.timestamp := 1001 |}]
       example_store)
  = (with_votes example_sid
       [{| server.encryptedValue := "5000"; server.timestamp := 1001 |}]
       example_store,
     server.ComputeResponse "5000" 1).
Proof.
  apply (single_vote_tally
           (with_votes example_sid
              [{| server.encryptedValue := "5000"; server.timestamp := 1001 |}]
              example_store)
           example_sid example_session
           {| server.encryptedValue := "5000"; server.timestamp := 1001 |} 35 36 5000);
    evaluate.
Defined.

(** * Abbreviations and snapshots *)

Lemma substring_length_min (k : nat) (s : string) :
  String.length (String.substring 0 k s) = Nat.min k (String.length s).
Proof.
  destruct (Nat.le_ge_cases k (String.length s)) as [Hle|Hge].
  - rewrite substring_length_long by exact Hle. lia.
  - rewrite substring_short by exact Hge. lia.
Qed.

(** X11.  The abbreviation used for the log, for snapshots and for the
    receipt of [castVote] has at most 53 characters: the first 50 of the
    string, or all of them when there are fewer, and three dots. *)
Theorem abbreviate_length (s : string) :
  String.length (js.abbreviate s) = (Nat.min 50 (String.length s) + 3)%nat
  ∧ String.prefix (String.substring 0 50 s) (js.abbreviate s) = true
  ∧ String.prefix (String.substring 0 50 s) s = true.
Proof.
  unfold js.abbreviate. rewrite app_length_string, substring_length_min.
  split; [reflexivity|].
  assert (Hprefix_app : ∀ a b, String.prefix a (String.app a b) = true).
  { intros a b. induction a as [|c a IH]; simpl.
    - destruct b; reflexivity.
    - destruct (ascii_dec c c); [exact IH|contradiction]. }
  split; [apply Hprefix_app|].
  generalize 50%nat. intros k. revert s. induction k as [|k IH]; intros s.
  - rewrite substring_0_0. destruct s; reflexivity.
  - destruct s as [|c s]; [reflexivity|]. simpl.
    destruct (ascii_dec c c); [apply IH|contradiction].
Qed.

(** X12.  The snapshot of a session of a reachable store lists as many votes
    as the session's counter says, in stored order and with the stored
    times, each abbreviated to at most 53 characters; the route changes
    nothing. *)
Theorem snapshot_lists_votes (st : server.State) (sid : string)
    (session : server.Session) (votes : list server.Vote) :
  server.reachable st →
  server.votingSessions st !! sid = Some session →
  server.encryptedVotes st !! sid = Some votes →
  ∃ views,
    server.session sid st
    = (st, server.SessionResponse sid (server.voteCount session)
             (server.createdAt session) (server.publicKey session) views)
    ∧ length views = server.voteCount session
    ∧ server.view_timestamp <$> views = server.timestamp <$> votes
    ∧ Forall (fun w => (String.length (server.encrypted w) ≤ 53)%nat) views.
Proof.
  intros Hreach Hs Hv. exists (server.view <$> votes).
  split; [apply (session_spec st sid session votes Hs Hv)|].
  split; [|split].
  - rewrite length_fmap. symmetry.
    apply (voteCount_matches st sid session votes Hreach Hs Hv).
  - rewrite <- list_fmap_compose. reflexivity.
  - apply Forall_fmap, Forall_forall. intros v _. simpl.
    unfold js.abbreviate. rewrite app_length_string, substring_length_min.
    change (String.length "...") with 3%nat. lia.
Qed.

Lemma snapshot_lists_votes_witness :
  ∃ views,
    server.session example_sid example_store
    = (example_store,
       server.SessionResponse example_sid 2 1000
         {| server.n := "35"; server.g := "36" |} views)
    ∧ length views = 2%nat.
Proof.
  destruct example_store_lookup as [Hs Hv].
  destruct (snapshot_lists_votes example_store example_sid example_session
              example_votes example_store_reachable Hs Hv)
    as (views & Heq & Hlen & _).
  exists views. split; [exact Heq|exact Hlen].
Defined.

(** * The client's bookkeeping *)

Lemma initializeSession_ok (this : client.SecureVotingClient) (keys : paillier.KeyPair)
    (random1 random2 : string) (now : Date) (srv : server.State) :
  client.initializeSession this (Ok keys) random1 random2 now srv
  = ((server.init (Ok keys) random1 random2 now srv).1,
     client_of (server.generateSessionId random1 random2) keys,
     Ok (server.generateSessionId random1 random2)).
Proof.
  destruct keys as [[n g] [l m]].
  unfold client.initializeSession, server.init, server.publicKeyJSON,
    server.privateKeyJSON, client_of. simpl.
  rewrite !BigInt_toString. reflexivity.
Qed.

(** X13.  [initializeSession] carries the generated key pair through the
    decimal strings of the init response without loss: whatever the client
    held before, it afterwards holds the returned session identifier, both
    key halves as the server printed them, and Paillier key objects equal to
    the generated ones.  When key generation fails on the server, the call
    throws [Failed to initialize session] and neither side changes. *)
Theorem initializeSession_outcomes (this : client.SecureVotingClient)
    (random1 random2 : string) (now : Date) (srv : server.State) :
  (∀ keys,
     client.initializeSession this (Ok keys) random1 random2 now srv
     = ((server.init (Ok keys) random1 random2 now srv).1,
        {| client.sessionId := Some (server.generateSessionId random1 random2);
           client.publicKey := Some (server.publicKeyJSON (paillier.publicKey keys));
           client.privateKey := Some (server.privateKeyJSON (paillier.privateKey keys));
           client.paillierPublicKey := Some (paillier.publicKey keys);
           client.paillierPrivateKey :=
             Some (paillier.privateKey keys, paillier.publicKey keys) |},
        Ok (server.generateSessionId random1 random2)))
  ∧ ∀ e,
      client.initializeSession this (Throw e) random1 random2 now srv
      = (srv, this, Throw (Error "Failed to initialize session")).
Proof.
  split; [intros keys; apply initializeSession_ok|]. intros e. reflexivity.
Qed.

(** X14.  [castVote] sends nothing when it refuses a call: without a session
    identifier or a public key object it throws [Session not initialized],
    and with both but a vote other than 0 and 1 it throws [Vote must be 0
    (No) or 1 (Yes)]; the server store is untouched in both cases. *)
Theorem castVote_refusals (this : client.SecureVotingClient) (vote r : Z) (now : Date)
    (srv : server.State) :
  (client.no_session this = true ∨ client.paillierPublicKey this = None →
   client.castVote this vote r now srv
   = (srv, Throw (Error "Session not initialized. Call initializeSession() first.")))
  ∧ (client.no_session this = false → client.paillierPublicKey this ≠ None →
     vote ≠ 0 → vote ≠ 1 →
     client.castVote this vote r now srv
     = (srv, Throw (Error "Vote must be 0 (No) or 1 (Yes)"))).
Proof.
  unfold client.castVote, client.no_session. split.
  - intros [H|H].
    + destruct (client.sessionId this) as [[|c s]|]; try discriminate;
        destruct (client.paillierPublicKey this); reflexivity.
    + rewrite H. destruct (client.sessionId this) as [[|c s]|]; reflexivity.
  - intros Hsession Hpub H0 H1.
    destruct (client.sessionId this) as [[|c s]|]; try discriminate.
    destruct (client.paillierPublicKey this); [|contradiction].
    destruct (Z.eqb_spec vote 0); [contradiction|].
    destruct (Z.eqb_spec vote 1); [contradiction|]. reflexivity.
Qed.

Lemma castVote_refusals_witness :
  client.castVote client.new 1 2 1001 example_store
  = (example_store,
     Throw (Error "Session not initialized. Call initializeSession() first."))
  ∧ client.castVote example_client 2 2 1001 example_store
    = (example_store, Throw (Error "Vote must be 0 (No) or 1 (Yes)")).
Proof.
  split.
  - apply (castVote_refusals client.new 1 2 1001 example_store). left. reflexivity.
  - apply (castVote_refusals example_client 2 2 1001 example_store);
      [reflexivity|discriminate|lia|lia].
Defined.

(** X15.  The receipt of an accepted [castVote] matches what the server
    then shows: the returned count is the count of the session, and the
    returned abbreviation is the last entry of the session's snapshot,
    stamped with the time of storing. *)
Theorem castVote_receipt (this : client.SecureVotingClient) (sid : string)
    (keys : paillier.KeyPair) (srv : server.State) (session : server.Session)
    (votes : list server.Vote) (vote r : Z) (now : Date) :
  holds_keys this sid keys →
  server.votingSessions srv !! sid = Some session →
  server.encryptedVotes srv !! sid = Some votes →
  vote = 0 ∨ vote = 1 →
  ∃ srv' receipt,
    client.castVote this vote r now srv = (srv', Ok receipt)
    ∧ client.voteCount receipt = S (server.voteCount session)
    ∧ (server.session sid srv').2
      = server.SessionResponse sid (client.voteCount receipt)
          (server.createdAt session) (server.publicKey session)
          ((server.view <$> votes)
           ++ [{| server.encrypted := client.encryptedVote receipt;
                  server.view_timestamp := now |}]).
Proof.
  intros Hkeys Hs Hv Hvote.
  pose proof (castVote_spec this sid keys srv session votes
                {| vote := vote; randomness := r; cast_at := now |} Hkeys Hs Hv Hvote)
    as Hcast.
  simpl in Hcast. eexists _, _. split; [exact Hcast|]. split; [reflexivity|].
  erewrite session_spec; [|apply add_vote_session|apply add_vote_votes].
  simpl. rewrite fmap_app. reflexivity.
Qed.

Lemma castVote_receipt_witness :
  ∃ srv' receipt,
    client.castVote example_client 0 4 1003 example_store = (srv', Ok receipt)
    ∧ client.voteCount receipt = 3%nat.
Proof.
  destruct example_store_lookup as [Hs Hv].
  destruct (castVote_receipt example_client example_sid example_keys example_store
              example_session example_votes 0 4 1003
              example_client_holds Hs Hv ltac:(left; reflexivity))
    as (srv' & receipt & Hcast & Hcount & _).
  exists srv', receipt. split; [exact Hcast|exact Hcount].
Defined.

(** * Saving and restoring the keys *)

(** X16.  [exportKeys] followed by [importKeys] restores a client: what a
    client exports after a successful [initializeSession] turns any other
    client object, whatever it held, into an equal one, Paillier key objects
    included, and [importKeys] returns normally. *)
Theorem exportKeys_importKeys_round_trip (this other : client.SecureVotingClient)
    (keys : paillier.KeyPair) (random1 random2 : string) (now : Date)
    (srv : server.State) :
  let mine := (client.initializeSession this (Ok keys) random1 random2 now srv).1.2 in
  ∃ saved, client.exportKeys mine = Ok saved
           ∧ client.importKeys other saved = (mine, Ok ()).
Proof.
  intros mine. subst mine. rewrite initializeSession_ok.
  destruct keys as [[n g] [l m]]. simpl.
  eexists. split; [reflexivity|].
  unfold client.importKeys, server.publicKeyJSON, server.privateKeyJSON. simpl.
  rewrite !BigInt_toString. reflexivity.
Qed.

(** X17.  [importKeys] followed by [exportKeys] returns the imported
    object whenever its session identifier is not empty, even when
    [importKeys] threw because a number could not be read: [exportKeys] looks
    at the three plain fields only.  With an empty identifier it throws [No
    keys to export]. *)
Theorem importKeys_exportKeys (this : client.SecureVotingClient)
    (saved : client.exported.Keys) :
  (client.exported.sessionId saved ≠ EmptyString →
   client.exportKeys (client.importKeys this saved).1 = Ok saved)
  ∧ (client.exported.sessionId saved = EmptyString →
     client.exportKeys (client.importKeys this saved).1
     = Throw (Error "No keys to export")).
Proof.
  destruct saved as [sid [n g] [l m]].
  unfold client.importKeys. simpl.
  split; intros Hsid;
    (destruct (js.BigInt n); [|destruct sid; [try contradiction|]; try discriminate; reflexivity]);
    simpl;
    (destruct (js.BigInt g); [|destruct sid; [try contradiction|]; try discriminate; reflexivity]);
    simpl;
    (destruct (js.BigInt l); [|destruct sid; [try contradiction|]; try discriminate; reflexivity]);
    simpl;
    (destruct (js.BigInt m); destruct sid; try contradiction; try discriminate; reflexivity).
Qed.

Lemma importKeys_exportKeys_witness :
  client.exportKeys (client.importKeys example_client example_saved_unreadable).1
  = Ok example_saved_unreadable
  ∧ (client.importKeys example_client example_saved_unreadable).2 = Throw SyntaxError.
Proof.
  split.
  - apply (importKeys_exportKeys example_client example_saved_unreadable). discriminate.
  - evaluate.
Defined.

(** X18.  [importKeys] assigns field by field.  When the modulus or the
    generator of the imported public key cannot be read, the call throws a
    [SyntaxError] with the session identifier and the key strings already
    replaced and both Paillier key objects still the previous ones: a
    following [castVote] then sends a vote encrypted under the previous public
    key to the imported session.  When only the private numbers cannot be
    read, the public key object is the imported one and the private key object
    the previous one. *)
Theorem importKeys_partial_assignment (this : client.SecureVotingClient)
    (saved : client.exported.Keys) :
  let replaced pubKey :=
    {| client.sessionId := Some (client.exported.sessionId saved);
       client.publicKey := Some (client.exported.publicKey saved);
       client.privateKey := Some (client.exported.privateKey saved);
       client.paillierPublicKey := pubKey;
       client.paillierPrivateKey := client.paillierPrivateKey this |} in
  (js.BigInt (server.n (client.exported.publicKey saved)) = Throw SyntaxError
   ∨ js.BigInt (server.g (client.exported.publicKey saved)) = Throw SyntaxError →
   client.importKeys this saved
   = (replaced (client.paillierPublicKey this), Throw SyntaxError)
   ∧ ∀ old vote r now srv session votes,
       client.paillierPublicKey this = Some old →
       client.exported.sessionId saved ≠ EmptyString →
       server.votingSessions srv !! client.exported.sessionId saved = Some session →
       server.encryptedVotes srv !! client.exported.sessionId saved = Some votes →
       vote = 0 ∨ vote = 1 →
       server.encryptedVotes
         (client.castVote (client.importKeys this saved).1 vote r now srv).1
         !! client.exported.sessionId saved
       = Some (votes ++ [{| server.encryptedValue :=
                              js.toString (paillier.encrypt old vote r);
                            server.timestamp := now |}]))
  ∧ ∀ n g,
      js.BigInt (server.n (client.exported.publicKey saved)) = Ok n →
      js.BigInt (server.g (client.exported.publicKey saved)) = Ok g →
      js.BigInt (server.lambda (client.exported.privateKey saved)) = Throw SyntaxError
      ∨ js.BigInt (server.mu (client.exported.privateKey saved)) = Throw SyntaxError →
      client.importKeys this saved
      = (replaced (Some {| paillier.n := n; paillier.g := g |}), Throw SyntaxError).
Proof.
  intros replaced. subst replaced. destruct saved as [sid [sn sg] [sl sm]]. simpl.
  split.
  - intros Hbad.
    assert (Himport :
      client.importKeys this
        {| client.exported.sessionId := sid;
           client.exported.publicKey := {| server.n := sn; server.g := sg |};
           client.exported.privateKey := {| server.lambda := sl; server.mu := sm |} |}
      = ({| client.sessionId := Some sid;
            client.publicKey := Some {| server.n := sn; server.g := sg |};
            client.privateKey := Some {| server.lambda := sl; server.mu := sm |};
            client.paillierPublicKey := client.paillierPublicKey this;
            client.paillierPrivateKey := client.paillierPrivateKey this |},
         Throw SyntaxError)).
    { unfold client.importKeys. simpl. destruct Hbad as [Hn|Hg].
      - rewrite Hn. reflexivity.
      - rewrite Hg. destruct (BigInt_outcome sn) as [[n Hn]|Hn]; rewrite Hn; reflexivity. }
    split; [exact Himport|].
    intros old vote r now srv session votes Hold Hsid Hs Hv Hvote.
    rewrite Himport. unfold client.castVote, client.no_session. simpl.
    rewrite Hold. destruct sid as [|c sid]; [contradiction|].
    assert (Hguard : negb (vote =? 0) && negb (vote =? 1) = false).
    { destruct Hvote as [-> | ->]; reflexivity. }
    rewrite Hguard, (submit_spec srv _ _ now session votes Hs Hv). simpl.
    apply lookup_insert_eq.
  - intros n g Hn Hg Hbad. unfold client.importKeys. simpl.
    rewrite Hn, Hg. simpl. destruct Hbad as [Hl|Hm].
    + rewrite Hl. reflexivity.
    + rewrite Hm. destruct (BigInt_outcome sl) as [[l Hl]|Hl]; rewrite Hl; reflexivity.
Qed.

Lemma importKeys_partial_assignment_witness :
  client.importKeys example_client example_saved_unreadable
  = ({| client.sessionId := Some "session_other";
        client.publicKey := Some {| server.n := "3x"; server.g := "36" |};
        client.privateKey := Some {| server.lambda := "12"; server.mu := "3" |};
        client.paillierPublicKey := client.paillierPublicKey example_client;
        client.paillierPrivateKey := client.paillierPrivateKey example_client |},
     Throw SyntaxError).
Proof.
  destruct (importKeys_partial_assignment example_client example_saved_unreadable)
    as [Hfirst _].
  destruct Hfirst as [Himport _]; [left; evaluate|]. exact Himport.
Defined.

(** * Reading the tally *)

Lemma compute_result_decimal (sid : string) (st : server.State) (er : string)
    (count : nat) :
  (server.compute sid st).2 = server.ComputeResponse er count →
  ∃ aggregate, er = js.toString aggregate.
Proof.
  unfold server.compute.
  destruct (server.votingSessions st !! sid); [|discriminate].
  destruct (server.encryptedVotes st !! sid) as [votes|]; [|discriminate].
  destruct (length votes =? 0)%nat; [discriminate|].
  destruct (server.homomorphic_sum _ _) as [agg|]; [|discriminate].
  simpl. intros [= <- _]. exists agg. reflexivity.
Qed.

Lemma computeResults_state (this : client.SecureVotingClient) (srv : server.State) :
  (client.computeResults this srv).1 = srv.
Proof.
  unfold client.computeResults.
  destruct (client.no_session this); [reflexivity|].
  destruct (client.sessionId this) as [sid|]; [|reflexivity].
  pose proof (compute_state sid srv) as Hstate.
  destruct (server.compute sid srv) as [srv' response]. simpl in Hstate. subst srv'.
  destruct response; reflexivity.
Qed.

(** X19.  What [computeResults] hands to the caller can always be read back:
    the server store is as before, and the returned [encryptedResult] is the
    decimal notation of an integer, so that [decryptResults], on any client,
    never fails at [BigInt]: it throws [Private key not available] without a
    private key object and otherwise gives exactly what [decrypt] gives on
    that integer. *)
Theorem computeResults_readable (this : client.SecureVotingClient) (srv srv' : server.State)
    (res : client.ComputeResult) :
  client.computeResults this srv = (srv', Ok res) →
  srv' = srv
  ∧ ∃ aggregate,
      client.encryptedResult res = js.toString aggregate
      ∧ ∀ that,
          client.decryptResults that (client.encryptedResult res)
          = match client.paillierPrivateKey that with
            | None => Throw (Error "Private key not available")
            | Some (privKey, pubKey) =>
                match paillier.decrypt privKey pubKey aggregate with
                | Ok decryptedSum => Ok (js.Number decryptedSum)
                | Throw e => Throw e
                end
            end.
Proof.
  intros Hrun. pose proof (computeResults_state this srv) as Hstate.
  rewrite Hrun in Hstate. simpl in Hstate. split; [exact Hstate|].
  unfold client.computeResults in Hrun.
  destruct (client.no_session this); [discriminate|].
  destruct (client.sessionId this) as [sid|]; [|discriminate].
  destruct (server.compute sid srv) as [srv1 response] eqn:Hcompute.
  destruct response as [| |er count| | | |]; try discriminate.
  injection Hrun as _ <-. simpl.
  destruct (compute_result_decimal sid srv er count) as [agg ->].
  { rewrite Hcompute. reflexivity. }
  exists agg. split; [reflexivity|]. intros that. unfold client.decryptResults.
  destruct (client.paillierPrivateKey that) as [[privKey pubKey]|]; [|reflexivity].
  rewrite BigInt_toString. simpl.
  destruct (paillier.decrypt privKey pubKey agg); reflexivity.
Qed.

Lemma computeResults_readable_witness :
  ∃ aggregate,
    (client.computeResults example_client example_store).2
    = Ok {| client.encryptedResult := js.toString aggregate;
            client.computedCount := 2 |}.
Proof.
  destruct (computeResults_readable example_client example_store example_store
              {| client.encryptedResult := "321"; client.computedCount := 2 |}
              ltac:(evaluate)) as (_ & aggregate & Heq & _).
  exists aggregate. simpl in Heq. rewrite <- Heq. evaluate.
Defined.

(** * The complete example *)

Lemma client_of_holds (sid : string) (keys : paillier.KeyPair) :
  sid ≠ EmptyString → holds_keys (client_of sid keys) sid keys.
Proof. intros Hne. repeat split; try reflexivity. exact Hne. Qed.

Lemma valid_keys_modulus (keys : paillier.KeyPair) :
  valid_keys keys → 6 ≤ paillier.n (paillier.publicKey keys).
Proof.
  intros (p & q & Hp & Hq & Hgen).
  assert (Hguard : p ≠ q ∧ Z.coprime (p * q) ((p - 1) * (q - 1))).
  { unfold paillier.generate_key_pair in Hgen.
    destruct (Z.eqb_spec p q); [discriminate|].
    destruct (Z.eqb_spec (Z.gcd (p * q) ((p - 1) * (q - 1))) 1); [|discriminate].
    split; assumption. }
  destruct Hguard as [Hne Hco].
  destruct (generate_key_pair_spec p q Hp Hq Hne Hco) as (mu & Heq & _).
  rewrite Heq in Hgen. injection Hgen as <-. simpl.
  pose proof (Z.prime_ge_2 p Hp). pose proof (Z.prime_ge_2 q Hq). nia.
Qed.

(** The run of the example up to the tally: the store after the four
    votes, and the returned value in terms of the last two steps. *)
Lemma completeVotingExample_run (keys : paillier.KeyPair) (random1 random2 : string)
    (now : Date) (r1 r2 r3 r4 : Z) (t1 t2 t3 t4 : Date) (srv : server.State) :
  let sid := server.generateSessionId random1 random2 in
  let pub := paillier.publicKey keys in
  let this := client_of sid keys in
  ∃ srv',
    server.votingSessions srv' !! sid
    = Some {| server.publicKey := server.publicKeyJSON pub;
              server.createdAt := now;
              server.voteCount := 4 |}
    ∧ server.encryptedVotes srv' !! sid
      = Some (stored pub <$> example_run r1 r2 r3 r4 t1 t2 t3 t4)
    ∧ (∀ other, other ≠ sid →
         server.votingSessions srv' !! other = server.votingSessions srv !! other
         ∧ server.encryptedVotes srv' !! other = server.encryptedVotes srv !! other)
    ∧ client.completeVotingExample (Ok keys) random1 random2 now
        r1 r2 r3 r4 t1 t2 t3 t4 srv
      = (srv',
         match (client.computeResults this srv').2 with
         | Throw e => Throw e
         | Ok computeResult =>
             client.decryptResults this (client.encryptedResult computeResult)
         end).
Proof.
  intros sid pub this.
  pose proof (client_of_holds sid keys (generateSessionId_nonempty random1 random2))
    as Hkeys. fold this in Hkeys.
  unfold client.completeVotingExample. rewrite initializeSession_ok.
  fold sid. fold this.
  set (srv1 := (server.init (Ok keys) random1 random2 now srv).1).
  assert (Hs1 : server.votingSessions srv1 !! sid
                = Some {| server.publicKey := server.publicKeyJSON pub;
                          server.createdAt := now; server.voteCount := 0 |})
    by apply lookup_insert_eq.
  assert (Hv1 : server.encryptedVotes srv1 !! sid = Some []) by apply lookup_insert_eq.
  assert (Hframe1 : ∀ other, other ≠ sid →
            server.votingSessions srv1 !! other = server.votingSessions srv !! other
            ∧ server.encryptedVotes srv1 !! other = server.encryptedVotes srv !! other).
  { intros other Hne. unfold srv1. simpl.
    split; apply lookup_insert_ne; intros Heq; apply Hne; symmetry; exact Heq. }
  clearbody srv1.
  assert (Hstep : ∀ srv0 session votes b,
            server.votingSessions srv0 !! sid = Some session →
            server.encryptedVotes srv0 !! sid = Some votes →
            vote b = 0 ∨ vote b = 1 →
            ∃ srv2,
              client.castVote this (vote b) (randomness b) (cast_at b) srv0
              = (srv2, Ok {| client.voteCount := S (server.voteCount session);
                             client.encryptedVote :=
                               js.abbreviate (server.encryptedValue (stored pub b)) |})
              ∧ server.votingSessions srv2 !! sid
                = Some {| server.publicKey := server.publicKey session;
                          server.createdAt := server.createdAt session;
                          server.voteCount := S (server.voteCount session) |}
              ∧ server.encryptedVotes srv2 !! sid = Some (votes ++ [stored pub b])
              ∧ ∀ other, other ≠ sid →
                  server.votingSessions srv2 !! other = server.votingSessions srv0 !! other
                  ∧ server.encryptedVotes srv2 !! other
                    = server.encryptedVotes srv0 !! other).
  { intros srv0 session votes b Hs Hv Hb. eexists. split.
    - apply (castVote_spec this sid keys srv0 session votes b Hkeys Hs Hv Hb).
    - split; [apply add_vote_session|]. split; [apply add_vote_votes|].
      intros other Hne. split; apply lookup_insert_ne; congruence. }
  destruct (Hstep srv1 _ _ {| vote := 1; randomness := r1; cast_at := t1 |} Hs1 Hv1)
    as (srv2 & Hc2 & Hs2 & Hv2 & Hframe2); [right; reflexivity|].
  destruct (Hstep srv2 _ _ {| vote := 1; randomness := r2; cast_at := t2 |} Hs2 Hv2)
    as (srv3 & Hc3 & Hs3 & Hv3 & Hframe3); [right; reflexivity|].
  destruct (Hstep srv3 _ _ {| vote := 0; randomness := r3; cast_at := t3 |} Hs3 Hv3)
    as (srv4 & Hc4 & Hs4 & Hv4 & Hframe4); [left; reflexivity|].
  destruct (Hstep srv4 _ _ {| vote := 1; randomness := r4; cast_at := t4 |} Hs4 Hv4)
    as (srv5 & Hc5 & Hs5 & Hv5 & Hframe5); [right; reflexivity|].
  cbn [vote randomness cast_at] in Hc2, Hc3, Hc4, Hc5.
  rewrite Hc2, Hc3, Hc4, Hc5.
  exists srv5. split; [exact Hs5|]. split; [exact Hv5|]. split.
  - intros other Hne.
    destruct (Hframe1 other Hne) as [A1 B1]. destruct (Hframe2 other Hne) as [A2 B2].
    destruct (Hframe3 other Hne) as [A3 B3]. destruct (Hframe4 other Hne) as [A4 B4].
    destruct (Hframe5 other Hne) as [A5 B5].
    split; congruence.
  - pose proof (computeResults_state this srv5) as Hstate.
    destruct (client.computeResults this srv5) as [srv6 computed].
    simpl in Hstate. subst srv6. simpl.
    destruct computed as [computeResult|e]; [|reflexivity].
    destruct (client.decryptResults this (client.encryptedResult computeResult));
      [|reflexivity].
    reflexivity.
Qed.

(** X20.  Whatever key pair the server generates and whatever randomness
    the encryptions draw, [completeVotingExample] leaves on the server one
    new session with a count of four and the four ciphertexts of 1, 1, 0, 1
    in the order cast, and every other session as it was.  When key
    generation fails it returns [success: false] with [Failed to initialize
    session] and the server is unchanged. *)
Theorem completeVotingExample_store (random1 random2 : string) (now : Date)
    (r1 r2 r3 r4 : Z) (t1 t2 t3 t4 : Date) (srv : server.State) :
  (∀ keys,
     let sid := server.generateSessionId random1 random2 in
     let pub := paillier.publicKey keys in
     let srv' := (client.completeVotingExample (Ok keys) random1 random2 now
                    r1 r2 r3 r4 t1 t2 t3 t4 srv).1 in
     server.votingSessions srv' !! sid
     = Some {| server.publicKey := server.publicKeyJSON pub;
               server.createdAt := now;
               server.voteCount := 4 |}
     ∧ server.encryptedVotes srv' !! sid
       = Some [ {| server.encryptedValue := js.toString (paillier.encrypt pub 1 r1);
                   server.timestamp := t1 |};
                {| server.encryptedValue := js.toString (paillier.encrypt pub 1 r2);
                   server.timestamp := t2 |};
                {| server.encryptedValue := js.toString (paillier.encrypt pub 0 r3);
                   server.timestamp := t3 |};
                {| server.encryptedValue := js.toString (paillier.encrypt pub 1 r4);
                   server.timestamp := t4 |} ]
     ∧ ∀ other, other ≠ sid →
         server.votingSessions srv' !! other = server.votingSessions srv !! other
         ∧ server.encryptedVotes srv' !! other = server.encryptedVotes srv !! other)
  ∧ ∀ e,
      client.completeVotingExample (Throw e) random1 random2 now
        r1 r2 r3 r4 t1 t2 t3 t4 srv
      = (srv, Throw (Error "Failed to initialize session")).
Proof.
  split; [|intros e; reflexivity].
  intros keys sid pub srv'.
  destruct (completeVotingExample_run keys random1 random2 now r1 r2 r3 r4 t1 t2 t3 t4 srv)
    as (srv5 & Hs & Hv & Hframe & Hrun).
  subst srv'. rewrite Hrun. simpl. split; [exact Hs|]. split; [exact Hv|exact Hframe].
Qed.

Lemma completeVotingExample_store_witness :
  server.votingSessions
    (client.completeVotingExample (Ok example_keys) "0.h2m5t8" "0.u4e6" 1000
       2 3 4 6 1001 1002 1003 1004 example_store).1
    !! server.generateSessionId "0.h2m5t8" "0.u4e6"
  = Some {| server.publicKey := server.publicKeyJSON (paillier.publicKey example_keys);
            server.createdAt := 1000;
            server.voteCount := 4 |}
  ∧ server.encryptedVotes
      (client.completeVotingExample (Ok example_keys) "0.h2m5t8" "0.u4e6" 1000
         2 3 4 6 1001 1002 1003 1004 example_store).1
      !! example_sid
    = server.encryptedVotes example_store !! example_sid.
Proof.
  destruct (completeVotingExample_store "0.h2m5t8" "0.u4e6" 1000
              2 3 4 6 1001 1002 1003 1004 example_store) as [Hstore _].
  pose proof (Hstore example_keys) as Hrun. cbv zeta in Hrun.
  destruct Hrun as (Hsession & _ & Hframe).
  split; [exact Hsession|]. apply (Hframe example_sid). vm_compute. discriminate.
Defined.

(** X21.  With a key pair produced by key generation and encryption
    randomness taken from the units below the modulus,
    [completeVotingExample] returns [success: true] with [totalYesVotes]
    equal to 3, the number of Yes votes among 1, 1, 0, 1. *)
Theorem completeVotingExample_counts_three (keys : paillier.KeyPair)
    (random1 random2 : string) (now : Date) (r1 r2 r3 r4 : Z) (t1 t2 t3 t4 : Date)
    (srv : server.State) :
  valid_keys keys →
  Forall (fun r => 0 < r < paillier.n (paillier.publicKey keys)
                   ∧ Z.coprime r (paillier.n (paillier.publicKey keys)))
    [r1; r2; r3; r4] →
  (client.completeVotingExample (Ok keys) random1 random2 now
     r1 r2 r3 r4 t1 t2 t3 t4 srv).2
  = Ok (js.Integer 3).
Proof.
  intros Hvalid Hr.
  destruct (completeVotingExample_run keys random1 random2 now r1 r2 r3 r4 t1 t2 t3 t4 srv)
    as (srv5 & Hs & Hv & _ & Hrun).
  rewrite Hrun. simpl.
  set (sid := server.generateSessionId random1 random2) in *.
  set (ballots := example_run r1 r2 r3 r4 t1 t2 t3 t4) in *.
  assert (Hballots : Forall (valid_ballot (paillier.publicKey keys)) ballots).
  { apply Forall_cons in Hr as [[H1 C1] Hr]. apply Forall_cons in Hr as [[H2 C2] Hr].
    apply Forall_cons in Hr as [[H3 C3] Hr]. apply Forall_cons in Hr as [[H4 C4] _].
    unfold ballots, example_run, valid_ballot.
    repeat constructor; simpl; auto; lia. }
  destruct (tally_spec keys Hvalid (client_of sid keys) sid srv5
              (stored (paillier.publicKey keys) <$> ballots) (vote <$> ballots))
    as (er & Hcompute & Hdecrypt).
  - apply client_of_holds, generateSessionId_nonempty.
  - split; [|exact Hv]. eexists. split; [exact Hs|reflexivity].
  - apply Forall2_fmap, Forall_Forall2_diag.
    eapply Forall_impl; [exact Hballots|]. apply stored_holds. exact Hvalid.
  - discriminate.
  - rewrite Hcompute. simpl. rewrite Hdecrypt.
    pose proof (valid_keys_modulus keys Hvalid) as Hn.
    change (total (vote <$> ballots)) with 3.
    rewrite Z.mod_small by lia. reflexivity.
Qed.

Lemma completeVotingExample_counts_three_witness :
  (client.completeVotingExample (Ok example_keys) "0.k3x9w2p5q8am" "0.7c1z4v6b0d" 1000
     2 3 4 6 1001 1002 1003 1004 server.initial).2
  = Ok (js.Integer 3).
Proof.
  apply (completeVotingExample_counts_three example_keys "0.k3x9w2p5q8am" "0.7c1z4v6b0d"
           1000 2 3 4 6 1001 1002 1003 1004 server.initial example_keys_valid).
  repeat constructor; try lia;
    apply Z.gcd_unique; try lia; try apply Z.divide_1_l; vm_compute; reflexivity.
Defined.

(** * The demonstration page *)

(** X22.  The stand-in for encryption on the demonstration page does not
    hide the vote: whatever the random suffixes and whatever keys the page
    holds, two strings returned by [encryptVote] are equal only for equal
    votes, so the vote can be read off the string. *)
Theorem encryptVote_reveals_vote (clientKeys clientKeys' : option app.Keys)
    (voteValue voteValue' : app.choice) (random1 random2 random1' random2' : string)
    (now now' : Date) (random random' : string) :
  (app.encryptVote clientKeys voteValue random1 random2 now random).2
  = (app.encryptVote clientKeys' voteValue' random1' random2' now' random').2 →
  voteValue = voteValue'.
Proof.
  unfold app.encryptVote. simpl.
  destruct voteValue, voteValue'; simpl; intros Heq;
    first [reflexivity | discriminate Heq].
Qed.

Lemma encryptVote_reveals_vote_witness : app.Yes = app.Yes.
Proof.
  apply (encryptVote_reveals_vote None None app.Yes app.Yes
           "0.a1b2c3d4e5f6" "0.g7h8i9j0k1l2" "0.a1b2c3d4e5f6" "0.g7h8i9j0k1l2"
           1000 1000 "0.m3n4o5p6q7r8" "0.m3n4o5p6q7r8").
  reflexivity.
Defined.
